(** * Application lifecycle supervisor: a shallow embedding

    The development follows the TypeScript module that exports [makeApp]:
    the lifecycle ladder ([makeAppLifecycleManager]), the hook registry
    ([makeHookStore]), the sequential runner ([promiseChain]), the
    memoising wrapper ([memo]) and the controller with its shutdown
    routine ([start], [stop], [shutdown]).

    Promises are embedded as terms ([Promise]) with a small-step reading:
    one [tick] is one reaction job of the event loop, and the settlement of
    a user hook is an event supplied by the environment. *)

From stdpp Require Import base decidable countable gmap list.
From Stdlib Require Import ZArith Lia Sorted.

Local Open Scope Z_scope.

(** ** Phases and run states *)

(** Modelled from the spec: the enumeration [Lifecycle] is imported from
    another module ("@/_lib/Lifecycle"); the six phases are the ones the
    source lists in [appLifecycle]. *)
Inductive Lifecycle : Type :=
  | BOOTING | BOOTED | READY | RUNNING | SHUTTING_DOWN | TERMINATED.

Inductive AppState : Type :=
  | IDLE | STARTING | STARTED | STOPPING | STOPPED.

#[global] Instance Lifecycle_eq_dec : EqDecision Lifecycle.
Proof. solve_decision. Defined.

#[global] Instance AppState_eq_dec : EqDecision AppState.
Proof. solve_decision. Defined.

Definition Lifecycle_code (l : Lifecycle) : nat :=
  match l with
  | BOOTING => 0 | BOOTED => 1 | READY => 2
  | RUNNING => 3 | SHUTTING_DOWN => 4 | TERMINATED => 5
  end%nat.

Definition Lifecycle_of_code (n : nat) : option Lifecycle :=
  match n with
  | 0 => Some BOOTING | 1 => Some BOOTED | 2 => Some READY
  | 3 => Some RUNNING | 4 => Some SHUTTING_DOWN | 5 => Some TERMINATED
  | _ => None
  end%nat.

#[global] Instance Lifecycle_countable : Countable Lifecycle.
Proof.
  apply (inj_countable Lifecycle_code Lifecycle_of_code).
  intros []; reflexivity.
Defined.

(** ** Lifecycle ladder *)

Definition appLifecycle : list Lifecycle :=
  [BOOTING; BOOTED; READY; RUNNING; SHUTTING_DOWN; TERMINATED].

(** [Array.prototype.indexOf]: first position of the element, [-1] when it
    does not occur. *)
Fixpoint indexOf_from (xs : list Lifecycle) (x : Lifecycle) (i : Z) : Z :=
  match xs with
  | [] => -1
  | y :: ys => if decide (y = x) then i else indexOf_from ys x (i + 1)
  end.

(** The pointer [current] is declared without an initial value: [None] is
    JavaScript's [undefined], which occurs in no array of phases. *)
Definition indexOf (xs : list Lifecycle) (x : option Lifecycle) : Z :=
  match x with
  | None => -1
  | Some v => indexOf_from xs v 0
  end.

Section LifecycleManager.
Variable stateMap : list Lifecycle.

Definition canTransition (current : option Lifecycle) (lifecycle : Lifecycle) : bool :=
    indexOf appLifecycle current <? indexOf stateMap (Some lifecycle).

(** [makeTransition callback or lifecycle]: the pointer is threaded
      explicitly; the result is the new pointer and the returned value. *)
Definition makeTransition {R : Type} (callback : Lifecycle -> R) (or : R)
      (current : option Lifecycle) (lifecycle : Lifecycle) : option Lifecycle * R :=
    if canTransition current lifecycle
    then (Some lifecycle, callback lifecycle)
    else (current, or).
End LifecycleManager.

(** ** Hook registry *)

(** A user hook is opaque to the engine: it is identified by a number, and
    what its promise does is decided by the environment. *)
Definition HookFn : Type := nat.

Module HookStore.

Definition get (hooks : gmap Lifecycle (list HookFn)) (lifecycle : Lifecycle)
    : list HookFn :=
    match hooks !! lifecycle with
    | Some fns => fns
    | None => []
    end.

Definition append (hooks : gmap Lifecycle (list HookFn)) (lifecycle : Lifecycle)
      (fn : list HookFn) : gmap Lifecycle (list HookFn) :=
    <[lifecycle := get hooks lifecycle ++ fn]> hooks.

Definition prepend (hooks : gmap Lifecycle (list HookFn)) (lifecycle : Lifecycle)
      (fn : list HookFn) : gmap Lifecycle (list HookFn) :=
    <[lifecycle := fn ++ get hooks lifecycle]> hooks.

End HookStore.

Inductive Order : Type := Append | Prepend.

#[global] Instance Order_eq_dec : EqDecision Order.
Proof. solve_decision. Defined.

(** The second argument of [once]: one hook or an array of hooks. *)
Inductive HookArg : Type :=
  | One (fn : HookFn)
  | Many (fns : list HookFn).

Definition spread (fn : HookArg) : list HookFn :=
  match fn with
  | One f => [f]
  | Many fs => fs
  end.

Definition hooks_call (order : Order) (hooks : gmap Lifecycle (list HookFn))
    (lifecycle : Lifecycle) (fn : list HookFn) : gmap Lifecycle (list HookFn) :=
  match order with
  | Append => HookStore.append hooks lifecycle fn
  | Prepend => HookStore.prepend hooks lifecycle fn
  end.


(** ** Promises and the sequential runner *)

Inductive Err : Type :=
  | AlreadyStarted           (* "The application has already started." *)
  | NotRunning               (* "The application is not running." *)
  | HookError (n : nat).     (* a failure raised by a user hook *)

Inductive Outcome : Type :=
  | Fulfilled
  | Rejected (e : Err).

(** The functions that are passed to [promiseChain]. *)
Inductive Fn : Type :=
  | Fn_status (newStatus : AppState)   (* [status(newStatus)] *)
  | Fn_phase (lifecycle : Lifecycle)   (* [() => promiseChain(hooks.get(lifecycle))] *)
  | Fn_started                         (* [started] *)
  | Fn_hook (h : HookFn).              (* a hook taken from the registry *)

(** A promise is [Promise.resolve()] or an already rejected promise
    ([Settled]), the promise returned by a user hook that has been called
    ([Pending]), the promise created by [started] ([Gate], resolved by
    [release]), or [p.then(fn)]. *)
Inductive Promise : Type :=
  | Settled (o : Outcome)
  | Pending (h : HookFn)
  | Gate
  | Then (p : Promise) (fn : Fn).

#[global] Instance Err_eq_dec : EqDecision Err.
Proof. solve_decision. Defined.

#[global] Instance Outcome_eq_dec : EqDecision Outcome.
Proof. solve_decision. Defined.

Definition promiseChain (hooksFns : list Fn) : Promise :=
  fold_left (fun chain fn => Then chain fn) hooksFns (Settled Fulfilled).

(** ** The controller's state *)

Inductive Msg : Type :=
  | M_starting      (* "Starting application" *)
  | M_started       (* "Application started" *)
  | M_stopping      (* "Stopping application" *)
  | M_keeps_alive   (* "The stop process has finished but something is keeping ..." *)
  | M_ragequit      (* "Ok, my patience is over! #ragequit" *)
  | M_repeat.       (* "The application is yet to finishing the shutdown process. ..." *)

(** What an execution makes observable, oldest first. *)
Inductive Obs : Type :=
  | Log_info (m : Msg)
  | Log_warn (m : Msg)
  | Log_error_msg (m : Msg)
  | Log_error (e : Err)
  | Run_phase (lifecycle : Lifecycle)   (* the phase's hooks are fetched and chained *)
  | Invoke (h : HookFn)                 (* a user hook is called *)
  | Newline
  | Exit (code : Z).

#[global] Instance Msg_eq_dec : EqDecision Msg.
Proof. solve_decision. Defined.

#[global] Instance Obs_eq_dec : EqDecision Obs.
Proof. solve_decision. Defined.

(** The progress of one call of an async function ([start] or [stop]);
    it is also the state of the promise that the call returned. *)
Inductive Act : Type :=
  | AwaitChain (p : Promise)   (* suspended at [await promiseChain([...])] *)
  | AwaitStop                  (* [start] only: suspended at [await stop()] *)
  | Finished (o : Outcome).

Record PromiseObj : Type := mkPromiseObj { pid : nat; act : Act }.

Record State : Type := mkState {
  appState : AppState;
  current : option Lifecycle;
  release : bool;                        (* [release] is not null *)
  hooks : gmap Lifecycle (list HookFn);
  forceShutdown : bool;
  startValue : option PromiseObj;        (* the cell [value] of [memo] around [start] *)
  stopValue : option PromiseObj;         (* the cell [value] of [memo] around [stop] *)
  nextId : nat;                          (* identity of the next promise object *)
  waiting : list Z;                      (* calls of [shutdown(code)] suspended at [await stop()] *)
  deadlines : list Z;                    (* armed hard-deadline timers, by exit code *)
  diagnostic : bool;                     (* the timer of [stop] is armed *)
  exited : option Z;                     (* [process.exit(code)] has been called *)
  trace : list Obs
}.

Definition init : State :=
  mkState IDLE None false ∅ false None None 0%nat [] [] false None [].

Definition set_appState (v : AppState) (s : State) : State :=
  mkState v (current s) (release s) (hooks s) (forceShutdown s) (startValue s)
    (stopValue s) (nextId s) (waiting s) (deadlines s) (diagnostic s) (exited s) (trace s).

Definition set_current (v : option Lifecycle) (s : State) : State :=
  mkState (appState s) v (release s) (hooks s) (forceShutdown s) (startValue s)
    (stopValue s) (nextId s) (waiting s) (deadlines s) (diagnostic s) (exited s) (trace s).

Definition set_release (v : bool) (s : State) : State :=
  mkState (appState s) (current s) v (hooks s) (forceShutdown s) (startValue s)
    (stopValue s) (nextId s) (waiting s) (deadlines s) (diagnostic s) (exited s) (trace s).

Definition set_hooks (v : gmap Lifecycle (list HookFn)) (s : State) : State :=
  mkState (appState s) (current s) (release s) v (forceShutdown s) (startValue s)
    (stopValue s) (nextId s) (waiting s) (deadlines s) (diagnostic s) (exited s) (trace s).

Definition set_forceShutdown (v : bool) (s : State) : State :=
  mkState (appState s) (current s) (release s) (hooks s) v (startValue s)
    (stopValue s) (nextId s) (waiting s) (deadlines s) (diagnostic s) (exited s) (trace s).

Definition set_startValue (v : option PromiseObj) (s : State) : State :=
  mkState (appState s) (current s) (release s) (hooks s) (forceShutdown s) v
    (stopValue s) (nextId s) (waiting s) (deadlines s) (diagnostic s) (exited s) (trace s).

Definition set_stopValue (v : option PromiseObj) (s : State) : State :=
  mkState (appState s) (current s) (release s) (hooks s) (forceShutdown s) (startValue s)
    v (nextId s) (waiting s) (deadlines s) (diagnostic s) (exited s) (trace s).

Definition set_nextId (v : nat) (s : State) : State :=
  mkState (appState s) (current s) (release s) (hooks s) (forceShutdown s) (startValue s)
    (stopValue s) v (waiting s) (deadlines s) (diagnostic s) (exited s) (trace s).

Definition set_waiting (v : list Z) (s : State) : State :=
  mkState (appState s) (current s) (release s) (hooks s) (forceShutdown s) (startValue s)
    (stopValue s) (nextId s) v (deadlines s) (diagnostic s) (exited s) (trace s).

Definition set_deadlines (v : list Z) (s : State) : State :=
  mkState (appState s) (current s) (release s) (hooks s) (forceShutdown s) (startValue s)
    (stopValue s) (nextId s) (waiting s) v (diagnostic s) (exited s) (trace s).

Definition set_diagnostic (v : bool) (s : State) : State :=
  mkState (appState s) (current s) (release s) (hooks s) (forceShutdown s) (startValue s)
    (stopValue s) (nextId s) (waiting s) (deadlines s) v (exited s) (trace s).

Definition set_exited (v : option Z) (s : State) : State :=
  mkState (appState s) (current s) (release s) (hooks s) (forceShutdown s) (startValue s)
    (stopValue s) (nextId s) (waiting s) (deadlines s) (diagnostic s) v (trace s).

Definition emit (o : Obs) (s : State) : State :=
  mkState (appState s) (current s) (release s) (hooks s) (forceShutdown s) (startValue s)
    (stopValue s) (nextId s) (waiting s) (deadlines s) (diagnostic s) (exited s)
    (trace s ++ [o]).

(** [process.exit(code)]: nothing runs afterwards. *)
Definition process_exit (code : Z) (s : State) : State :=
  set_exited (Some code) (emit (Exit code) s).

(** ** Running promises *)

(** Calling one of the functions of a chain: the promise it returns and
    its effect on the controller. *)
Definition invoke (fn : Fn) (s : State) : Promise * State :=
  match fn with
  | Fn_status newStatus => (Settled Fulfilled, set_appState newStatus s)
  | Fn_phase lifecycle =>
      (promiseChain (map Fn_hook (HookStore.get (hooks s) lifecycle)),
       emit (Run_phase lifecycle) s)
  | Fn_started =>
      (Gate, set_release true (set_appState STARTED (emit (Log_info M_started) s)))
  | Fn_hook h => (Pending h, emit (Invoke h) s)
  end.

(** One reaction job: the innermost [then] whose receiver has settled
    fires. A fulfilled receiver calls the function and adopts the promise
    it returns; a rejected receiver passes its rejection on and the
    function is not called. *)
Fixpoint tick (p : Promise) (s : State) : Promise * State :=
  match p with
  | Then q fn =>
      match q with
      | Settled Fulfilled => invoke fn s
      | Settled (Rejected e) => (Settled (Rejected e), s)
      | _ => let '(q', s') := tick q s in (Then q' fn, s')
      end
  | _ => (p, s)
  end.

(** The environment settles the promise of the hook the chain waits for. *)
Fixpoint settle (o : Outcome) (p : Promise) : Promise :=
  match p with
  | Pending _ => Settled o
  | Then q fn => Then (settle o q) fn
  | _ => p
  end.

(** [release()]: the promise created by [started] is resolved. *)
Fixpoint resolve_gate (p : Promise) : Promise :=
  match p with
  | Gate => Settled Fulfilled
  | Then q fn => Then (resolve_gate q) fn
  | _ => p
  end.

Definition with_act (a : Act) (v : option PromiseObj) : option PromiseObj :=
  match v with
  | Some o => Some (mkPromiseObj (pid o) a)
  | None => None
  end.

Definition map_chain (f : Promise -> Promise) (v : option PromiseObj) : option PromiseObj :=
  match v with
  | Some (mkPromiseObj i (AwaitChain p)) => Some (mkPromiseObj i (AwaitChain (f p)))
  | _ => v
  end.

(** ** [memo] *)

(** [memo(fn)]: the cell [value] starts undefined ([None]); a call runs
    [fn] only while the cell is falsy, stores what it returned and returns
    the content of the cell. Here [fn] is an async function: what it
    returns is a fresh promise object, which is truthy. The result is the
    identity of the returned promise. *)
Definition memo (fn : State -> State * Act)
    (value : State -> option PromiseObj)
    (set_value : option PromiseObj -> State -> State)
    (s : State) : State * nat :=
  match value s with
  | Some v => (s, pid v)
  | None =>
      let '(s', a) := fn s in
      let v := mkPromiseObj (nextId s') a in
      (set_value (Some v) (set_nextId (S (nextId s')) s'), pid v)
  end.

(** ** [makeApp] *)

Definition transition : option Lifecycle -> Lifecycle -> option Lifecycle * list Fn :=
  makeTransition appLifecycle (fun lifecycle => [Fn_phase lifecycle]) [].

(** The body of [start] up to its first [await]. *)
Definition start_body (s : State) : State * Act :=
  if decide (appState s = IDLE) then
    let s1 := emit (Log_info M_starting) s in
    let '(c1, t1) := transition (current s1) BOOTING in
    let '(c2, t2) := transition c1 BOOTED in
    let '(c3, t3) := transition c2 READY in
    let '(c4, t4) := transition c3 RUNNING in
    (set_current c4 s1,
     AwaitChain (promiseChain
       ([Fn_status STARTING] ++ t1 ++ t2 ++ t3 ++ t4 ++ [Fn_started])))
  else (s, Finished (Rejected AlreadyStarted)).

(** The body of [stop] up to its first [await]. *)
Definition stop_body (s : State) : State * Act :=
  if decide (appState s = IDLE) then (s, Finished (Rejected NotRunning))
  else
    let s0 :=
      if release s
      then set_release false (set_startValue (map_chain resolve_gate (startValue s)) s)
      else s in
    let s1 := emit (Log_info M_stopping) s0 in
    let '(c1, t1) := transition (current s1) SHUTTING_DOWN in
    let '(c2, t2) := transition c1 TERMINATED in
    (set_current c2 s1,
     AwaitChain (promiseChain
       ([Fn_status STOPPING] ++ t1 ++ t2 ++ [Fn_status STOPPED]))).

Definition start : State -> State * nat := memo start_body startValue set_startValue.

Definition stop : State -> State * nat := memo stop_body stopValue set_stopValue.

(** One job of the call of [start]: the chain advances; a rejected chain
    enters the [catch] block, which logs and calls [stop]; a settled
    [stop] ends the call with the outcome of [stop]. *)
Definition start_job (s : State) : State :=
  match startValue s with
  | Some (mkPromiseObj i (AwaitChain p)) =>
      match p with
      | Settled Fulfilled => set_startValue (Some (mkPromiseObj i (Finished Fulfilled))) s
      | Settled (Rejected err) =>
          let s1 := emit (Log_error err) s in
          let '(s2, _) := stop s1 in
          set_startValue (Some (mkPromiseObj i AwaitStop)) s2
      | _ =>
          let '(p', s') := tick p s in
          set_startValue (Some (mkPromiseObj i (AwaitChain p'))) s'
      end
  | Some (mkPromiseObj i AwaitStop) =>
      match stopValue s with
      | Some (mkPromiseObj _ (Finished o)) =>
          set_startValue (Some (mkPromiseObj i (Finished o))) s
      | _ => s
      end
  | _ => s
  end.

(** One job of the call of [stop]: after the chain the diagnostic timer
    is armed; a rejected chain rejects the call. *)
Definition stop_job (s : State) : State :=
  match stopValue s with
  | Some (mkPromiseObj i (AwaitChain p)) =>
      match p with
      | Settled Fulfilled =>
          set_stopValue (Some (mkPromiseObj i (Finished Fulfilled))) (set_diagnostic true s)
      | Settled (Rejected err) =>
          set_stopValue (Some (mkPromiseObj i (Finished (Rejected err)))) s
      | _ =>
          let '(p', s') := tick p s in
          set_stopValue (Some (mkPromiseObj i (AwaitChain p'))) s'
      end
  | _ => s
  end.

(** [shutdown(code)()] up to its first [await] or its return. *)
Definition shutdown (code : Z) (s : State) : State :=
  let s1 := emit Newline s in
  let s2 := set_deadlines (deadlines s1 ++ [code]) s1 in
  if bool_decide (appState s2 = STOPPING) && (code =? 0) then
    if forceShutdown s2 then process_exit code s2
    else set_forceShutdown true (emit (Log_warn M_repeat) s2)
  else if decide (appState s2 = STOPPED) then process_exit code s2
  else
    let '(s3, _) := stop s2 in
    set_waiting (waiting s3 ++ [code]) s3.

(** The oldest suspended [shutdown] resumes once [stop] has settled: a
    failure of [stop] is logged, then the process exits. *)
Definition shutdown_job (s : State) : State :=
  match waiting s, stopValue s with
  | code :: rest, Some (mkPromiseObj _ (Finished o)) =>
      let s1 := set_waiting rest s in
      let s2 := match o with
                | Rejected err => emit (Log_error err) s1
                | Fulfilled => s1
                end in
      process_exit code s2
  | _, _ => s
  end.

Definition once (lifecycle : Lifecycle) (fn : HookArg) (order : Order) (s : State) : State :=
  set_hooks (hooks_call order (hooks s) lifecycle (spread fn)) s.

Definition getState (s : State) : AppState := appState s.

(** ** Executions *)

(** How the promise of a user hook settles: it resolves, or it rejects
    with a failure of the hook's own. *)
Inductive Settlement : Type :=
  | Resolves
  | Rejects (n : nat).

Definition settled (r : Settlement) : Outcome :=
  match r with
  | Resolves => Fulfilled
  | Rejects n => Rejected (HookError n)
  end.

(** What the environment can do. [terminate()] sends SIGTERM to the
    process itself, so it shows up as a later [Ev_signal 0], like a signal
    from outside; uncaught faults and unhandled rejections are
    [Ev_signal 1]. A job event on a call that cannot advance, and the
    settlement of a hook nobody waits for, leave the state as it is. *)
Inductive Event : Type :=
  | Ev_start                                  (* a caller invokes [start()] *)
  | Ev_stop                                   (* a caller invokes [stop()] *)
  | Ev_once (lifecycle : Lifecycle) (fn : HookArg) (order : Order)
  | Ev_signal (code : Z)                      (* a handler [shutdown(code)] is run *)
  | Ev_start_job                              (* a job of the call of [start] *)
  | Ev_stop_job                               (* a job of the call of [stop] *)
  | Ev_settle_start (r : Settlement)          (* the hook awaited by [start] settles *)
  | Ev_settle_stop (r : Settlement)           (* the hook awaited by [stop] settles *)
  | Ev_shutdown_job                           (* a suspended [shutdown] resumes *)
  | Ev_deadline (code : Z)                    (* a hard-deadline timer fires *)
  | Ev_diagnostic.                            (* the timer of [stop] fires *)

Definition step (s : State) (ev : Event) : State :=
  match exited s with
  | Some _ => s
  | None =>
      match ev with
      | Ev_start => fst (start s)
      | Ev_stop => fst (stop s)
      | Ev_once lifecycle fn order => once lifecycle fn order s
      | Ev_signal code => shutdown code s
      | Ev_start_job => start_job s
      | Ev_stop_job => stop_job s
      | Ev_settle_start r =>
          set_startValue (map_chain (settle (settled r)) (startValue s)) s
      | Ev_settle_stop r =>
          set_stopValue (map_chain (settle (settled r)) (stopValue s)) s
      | Ev_shutdown_job => shutdown_job s
      | Ev_deadline code =>
          if bool_decide (code ∈ deadlines s)
          then process_exit code (emit (Log_error_msg M_ragequit) s)
          else s
      | Ev_diagnostic =>
          if diagnostic s
          then set_diagnostic false (emit (Log_warn M_keeps_alive) s)
          else s
      end
  end.

Definition run (evs : list Event) (s : State) : State := fold_left step evs s.

Definition reachable (s : State) : Prop := exists evs, s = run evs init.

(** The outcome a caller holding the promise of [start] (of [stop])
    observes, once there is one. *)
Definition outcome_of (v : option PromiseObj) : option Outcome :=
  match v with
  | Some (mkPromiseObj _ (Finished o)) => Some o
  | _ => None
  end.

(** ** Reference definitions used in the statements *)

(** The fixed position of a phase in the six-phase sequence. *)
Definition order (lifecycle : Lifecycle) : Z :=
  match lifecycle with
  | BOOTING => 0
  | BOOTED => 1
  | READY => 2
  | RUNNING => 3
  | SHUTTING_DOWN => 4
  | TERMINATED => 5
  end.

(** An unset pointer is before every phase. *)
Definition order_of_current (current : option Lifecycle) : Z :=
  match current with
  | None => -1
  | Some lifecycle => order lifecycle
  end.

(** A registration call on the hook registry. *)
Record Call : Type := mkCall {
  call_order : Order;
  call_phase : Lifecycle;
  call_fns : list HookFn
}.

Definition apply_call (hooks : gmap Lifecycle (list HookFn)) (c : Call)
  : gmap Lifecycle (list HookFn) :=
  hooks_call (call_order c) hooks (call_phase c) (call_fns c).

Definition apply_calls (calls : list Call) (hooks : gmap Lifecycle (list HookFn))
  : gmap Lifecycle (list HookFn) :=
  fold_left apply_call calls hooks.

(** The hooks a call contributes to phase [lifecycle] with order [o]. *)
Definition contribution (o : Order) (lifecycle : Lifecycle) (c : Call) : list HookFn :=
  if bool_decide (call_order c = o ∧ call_phase c = lifecycle) then call_fns c else [].

(** The hooks of the [append] calls on the phase, in call order. *)
Definition appended (lifecycle : Lifecycle) (calls : list Call) : list HookFn :=
  concat (map (contribution Append lifecycle) calls).

(** The hooks of the [prepend] calls on the phase, last call first. *)
Definition prepended (lifecycle : Lifecycle) (calls : list Call) : list HookFn :=
  concat (map (contribution Prepend lifecycle) (rev calls)).

(** *** Shape of a promise

    A [Promise] is a spine of [then]s over one leaf: [leaf] is the
    promise at the bottom and [fns] the functions still to be called,
    next one first. *)
Fixpoint leaf (p : Promise) : Promise :=
  match p with
  | Then q _ => leaf q
  | _ => p
  end.

Fixpoint fns (p : Promise) : list Fn :=
  match p with
  | Then q fn => fns q ++ [fn]
  | _ => []
  end.

Definition graft (q : Promise) (rest : list Fn) : Promise :=
  fold_left (fun chain fn => Then chain fn) rest q.

(** *** The sequential runner, as the specification words it

    The hooks not started yet, the hook whose completion is awaited, or
    the failure that ended the run. *)
Inductive Runner : Type :=
  | Idle (rest : list HookFn)
  | Waiting (h : HookFn) (rest : list HookFn)
  | Failed (e : Err).

(** What can happen to a chain run on its own: a job of the event loop,
    or the settlement of the awaited hook. *)
Inductive ChainEv : Type :=
  | Job
  | Settles (r : Settlement).

(** One step of the reference runner; the second component lists the
    hooks started so far, oldest first. The next hook starts only when
    none is awaited; a failure starts nothing more. *)
Definition runner_step (st : Runner * list HookFn) (ev : ChainEv) : Runner * list HookFn :=
  match ev, fst st with
  | Job, Idle (h :: rest) => (Waiting h rest, snd st ++ [h])
  | Settles Resolves, Waiting _ rest => (Idle rest, snd st)
  | Settles (Rejects n), Waiting _ _ => (Failed (HookError n), snd st)
  | _, _ => st
  end.

Definition runner_run (evs : list ChainEv) (st : Runner * list HookFn)
  : Runner * list HookFn :=
  fold_left runner_step evs st.

(** The same events on a promise built by [promiseChain]. *)
Definition chain_step (ps : Promise * State) (ev : ChainEv) : Promise * State :=
  match ev with
  | Job => tick (fst ps) (snd ps)
  | Settles r => (settle (settled r) (fst ps), snd ps)
  end.

Definition chain_run (evs : list ChainEv) (ps : Promise * State) : Promise * State :=
  fold_left chain_step evs ps.

(** A promise stands for a state of the reference runner. *)
Definition represents (p : Promise) (r : Runner) : Prop :=
  match r with
  | Idle rest => leaf p = Settled Fulfilled /\ fns p = map Fn_hook rest
  | Waiting h rest => leaf p = Pending h /\ fns p = map Fn_hook rest
  | Failed e => leaf p = Settled (Rejected e) /\ exists rest, fns p = map Fn_hook rest
  end.

(** One job, read on the spine. *)
Definition tick_on_spine (p : Promise) (s : State) : Promise * State :=
  match leaf p, fns p with
  | Settled Fulfilled, f :: rest =>
      let '(q, s') := invoke f s in (graft q rest, s')
  | Settled (Rejected e), _ :: rest => (graft (Settled (Rejected e)) rest, s)
  | _, _ => (p, s)
  end.

(** The reference runner has started a prefix of the list, in list
    order, and what it still holds is the rest of the list. *)
Definition runner_wf (hs : list HookFn) (st : Runner * list HookFn) : Prop :=
  match fst st with
  | Idle rest => hs = snd st ++ rest
  | Waiting h rest => hs = snd st ++ rest /\ exists earlier, snd st = earlier ++ [h]
  | Failed _ => exists rest, hs = snd st ++ rest
  end.

(** The fields of the controller that calling a chain function cannot
    change: the cells of [memo], the pointer, the registry and the state
    of the shutdown routine. *)
Definition same_frame (s s' : State) : Prop :=
  startValue s' = startValue s /\ stopValue s' = stopValue s
  /\ current s' = current s /\ hooks s' = hooks s
  /\ forceShutdown s' = forceShutdown s /\ nextId s' = nextId s
  /\ waiting s' = waiting s /\ deadlines s' = deadlines s
  /\ diagnostic s' = diagnostic s /\ exited s' = exited s.

(** *** Invariant of the controller *)

(** The chain [start] builds when every transition is taken. *)
Definition startFns : list Fn :=
  [Fn_status STARTING; Fn_phase BOOTING; Fn_phase BOOTED; Fn_phase READY;
   Fn_phase RUNNING; Fn_started].

(** The functions [stop] can put in its chain. *)
Definition stop_fn (f : Fn) : Prop :=
  match f with
  | Fn_status STOPPING | Fn_status STOPPED => True
  | Fn_phase SHUTTING_DOWN | Fn_phase TERMINATED => True
  | Fn_hook _ => True
  | _ => False
  end.

(** The bottom of a chain is never rejected with one of the controller's
    own two errors: only hooks reject inside a chain. *)
Definition hook_leaf (p : Promise) : Prop :=
  match leaf p with
  | Settled (Rejected AlreadyStarted) | Settled (Rejected NotRunning) => False
  | _ => True
  end.

(** [stop] has not been called, or its first call found the controller
    idle. *)
Definition stop_unused (v : option PromiseObj) : Prop :=
  v = None \/ exists i, v = Some (mkPromiseObj i (Finished (Rejected NotRunning))).

Record Inv (s : State) : Prop := mkInv {
  inv_fresh :
    startValue s = None ->
    appState s = IDLE /\ current s = None /\ forall l, Run_phase l ∉ trace s;
  inv_idle : appState s = IDLE -> stop_unused (stopValue s);
  inv_start :
    forall i p, startValue s = Some (mkPromiseObj i (AwaitChain p)) ->
      hook_leaf p
      /\ exists hs n,
          fns p = map Fn_hook hs ++ drop n startFns
          /\ forall l, Fn_phase l ∈ drop n startFns -> Run_phase l ∉ trace s;
  inv_stop :
    forall i p, stopValue s = Some (mkPromiseObj i (AwaitChain p)) ->
      hook_leaf p /\ Forall stop_fn (fns p);
  inv_stop_act : forall i, stopValue s <> Some (mkPromiseObj i AwaitStop);
  inv_start_outcome : outcome_of (startValue s) <> Some (Rejected AlreadyStarted);
  inv_stop_outcome : outcome_of (stopValue s) <> Some (Rejected AlreadyStarted);
  inv_teardown :
    stop_unused (stopValue s) ->
    (Run_phase SHUTTING_DOWN ∉ trace s) /\ (Run_phase TERMINATED ∉ trace s)
}.

(** *** Counting the runs of a phase *)



(** *** Sample executions *)

(** A start without hooks, then a stop whose "shutting down" hook is
    still pending: the controller is in the middle of its shutdown. *)
Definition mid_shutdown : list Event :=
  [Ev_once SHUTTING_DOWN (One 1%nat) Append; Ev_start;
   Ev_start_job; Ev_start_job; Ev_start_job; Ev_start_job; Ev_start_job; Ev_start_job;
   Ev_stop; Ev_stop_job; Ev_stop_job; Ev_stop_job; Ev_start_job].

(** A start without hooks that is released by a stop and runs to its
    end, as the stop does: the first call of [start] has completed. *)
Definition completed_start : list Event :=
  [Ev_start;
   Ev_start_job; Ev_start_job; Ev_start_job; Ev_start_job; Ev_start_job; Ev_start_job;
   Ev_stop; Ev_start_job;
   Ev_stop_job; Ev_stop_job; Ev_stop_job; Ev_stop_job; Ev_stop_job].

(** A hook of "booting" is still pending when [stop] is called and runs
    to its end; the hook resolves afterwards and the chain of [start]
    goes on. *)
Definition stop_during_start : list Event :=
  [Ev_once BOOTING (One 7%nat) Append; Ev_start;
   Ev_start_job; Ev_start_job; Ev_start_job;
   Ev_stop; Ev_stop_job; Ev_stop_job; Ev_stop_job; Ev_stop_job; Ev_stop_job;
   Ev_settle_start Resolves;
   Ev_start_job; Ev_start_job; Ev_start_job; Ev_start_job].

(** A hook of "booted" rejects, and so does a hook of "shutting down"
    during the compensating stop. *)
Definition failed_boot_failed_teardown : list Event :=
  [Ev_once BOOTED (One 1%nat) Append; Ev_once SHUTTING_DOWN (One 2%nat) Append;
   Ev_start; Ev_start_job; Ev_start_job; Ev_start_job; Ev_start_job;
   Ev_settle_start (Rejects 1);
   Ev_start_job; Ev_start_job; Ev_start_job; Ev_start_job;
   Ev_stop_job; Ev_stop_job; Ev_stop_job;
   Ev_settle_stop (Rejects 2);
   Ev_stop_job; Ev_stop_job; Ev_stop_job;
   Ev_start_job].

(** [start] has called hook 1 of "booted" and waits for it. *)
Definition booted_hook_pending : list Event :=
  [Ev_once BOOTED (One 1%nat) Append; Ev_once SHUTTING_DOWN (One 2%nat) Append;
   Ev_start; Ev_start_job; Ev_start_job; Ev_start_job; Ev_start_job].

(** The run states an execution goes through, one per event, oldest
    first. *)
Fixpoint history (evs : list Event) (s : State) : list AppState :=
  match evs with
  | [] => [appState s]
  | ev :: rest => appState s :: history rest (step s ev)
  end.

(** *** The failure path of [start] *)

(** [start] is suspended on hook [h] of the "booted" phase: the hooks of
    that phase not started yet come first, then what [start] chained
    after the phase. *)
Definition in_booted_phase (s : State) (h : HookFn) : Prop :=
  exists i p rest,
    startValue s = Some (mkPromiseObj i (AwaitChain p))
    /\ leaf p = Pending h
    /\ fns p = map Fn_hook rest ++ [Fn_phase READY; Fn_phase RUNNING; Fn_started].

(** The number of functions the chain of [start] still holds. *)
Definition start_depth (s : State) : nat :=
  match startValue s with
  | Some (mkPromiseObj _ (AwaitChain p)) => length (fns p)
  | _ => 0%nat
  end.

(** The chain of [start] has been rejected: the rejection is on its way
    up, or [start] waits for [stop], or it has ended with the outcome of
    [stop]. *)
Definition start_failed (s : State) : Prop :=
  match startValue s with
  | Some (mkPromiseObj _ (AwaitChain p)) => exists e, leaf p = Settled (Rejected e)
  | Some (mkPromiseObj _ AwaitStop) => True
  | Some (mkPromiseObj _ (Finished o)) => outcome_of (stopValue s) = Some o
  | None => False
  end.

(** Once the chain of [start] is rejected, the phases "ready" and
    "running" stay unrun whatever happens next. *)
Record Failed_start (s : State) : Prop := mkFailed_start {
  fs_inv : Inv s;
  fs_failed : start_failed s;
  fs_ready : Run_phase READY ∉ trace s;
  fs_running : Run_phase RUNNING ∉ trace s
}.

(** *** Walking the ladder *)

(** A sequence of transition attempts from pointer [c]: the pointer at the
    end and the phases that were entered (the callback was called), in
    the order of the attempts. *)
Fixpoint walk (c : option Lifecycle) (targets : list Lifecycle)
  : option Lifecycle * list Lifecycle :=
  match targets with
  | [] => (c, [])
  | l :: rest =>
      let '(c1, t) := makeTransition appLifecycle (fun x => [x]) [] c l in
      let '(c2, ts) := walk c1 rest in
      (c2, t ++ ts)
  end.

(** The number of occurrences of a hook in a list of hooks. *)
Definition occurrences (h : HookFn) (fs : list HookFn) : nat :=
  length (filter (fun x => x = h) fs).

(** The occurrences of [h] in the arguments of the calls made on the
    phase, in either order. *)
Definition registered (h : HookFn) (lifecycle : Lifecycle) (calls : list Call) : nat :=
  sum_list (map (fun c => if bool_decide (call_phase c = lifecycle)
                          then occurrences h (call_fns c) else 0%nat) calls).

(** *** A start that can no longer be released *)

(** [start] is suspended on the promise of [started] although [stop] has
    already been called. *)
Definition parked_after_stop (s : State) : Prop :=
  (exists i p, startValue s = Some (mkPromiseObj i (AwaitChain p)) /\ leaf p = Gate)
  /\ stopValue s <> None.

(** *** Order of the run states *)

Definition rank (a : AppState) : nat :=
  match a with
  | IDLE => 0
  | STARTING => 1
  | STARTED => 2
  | STOPPING => 3
  | STOPPED => 4
  end%nat.

(** Where the two status functions "starting" and "stopping" can still
    be waiting in a chain. *)
Record Ranked (s : State) : Prop := mkRanked {
  rk_inv : Inv s;
  rk_starting :
    forall i p, startValue s = Some (mkPromiseObj i (AwaitChain p)) ->
      Fn_status STARTING ∈ fns p -> appState s = IDLE;
  rk_unstopped :
    stopValue s = None -> appState s <> STOPPING /\ appState s <> STOPPED;
  rk_stopping :
    forall i p, stopValue s = Some (mkPromiseObj i (AwaitChain p)) ->
      Fn_status STOPPING ∈ fns p ->
      (appState s = STARTING \/ appState s = STARTED)
      /\ exists r, fns p = Fn_status STOPPING :: r /\ Fn_status STOPPING ∉ r
}.

(** *** A start in which every hook resolves *)








(** *** What has run when the controller reports that it has started *)




(** * Properties *)

(** ** Lifecycle ladder *)

Lemma indexOf_appLifecycle (c : option Lifecycle) :
  indexOf appLifecycle c = order_of_current c.
Proof. destruct c as [[]|]; reflexivity. Qed.

(** C4. The transition check is true exactly when the fixed index of the
    target phase is strictly greater than the index of the current phase,
    an unset pointer counting as before all phases; a transition that
    passes the check moves the pointer and yields the phase's runner, and
    one that fails it yields the empty list (the skip value), leaves the
    pointer unchanged and contributes no function to the chain. *)
Theorem C4_transition_forward_only (current : option Lifecycle) (target : Lifecycle) :
  canTransition appLifecycle current target
    = bool_decide (order_of_current current < order target)
  /\ transition current target
    = if bool_decide (order_of_current current < order target)
      then (Some target, [Fn_phase target])
      else (current, []).
Proof.
  assert (E : canTransition appLifecycle current target
              = bool_decide (order_of_current current < order target)).
  { unfold canTransition.
    rewrite !indexOf_appLifecycle. simpl.
    destruct (Z.ltb_spec (order_of_current current) (order target)) as [H|H].
    - symmetry. apply bool_decide_eq_true. exact H.
    - symmetry. apply bool_decide_eq_false. lia. }
  split; [exact E|].
  unfold transition, makeTransition. rewrite E.
  destruct (bool_decide _); reflexivity.
Qed.

(** ** Hook registry *)

Lemma contribution_same (o : Order) (l : Lifecycle) (fs : list HookFn) :
  contribution o l (mkCall o l fs) = fs.
Proof. unfold contribution. rewrite bool_decide_eq_true_2; [reflexivity|done]. Qed.

Lemma contribution_other_order (o o' : Order) (l l' : Lifecycle) (fs : list HookFn) :
  o <> o' -> contribution o' l' (mkCall o l fs) = [].
Proof.
  intros H. unfold contribution. rewrite bool_decide_eq_false_2; [reflexivity|].
  simpl. intros [E _]. exact (H E).
Qed.

Lemma contribution_other_phase (o o' : Order) (l l' : Lifecycle) (fs : list HookFn) :
  l <> l' -> contribution o' l' (mkCall o l fs) = [].
Proof.
  intros H. unfold contribution. rewrite bool_decide_eq_false_2; [reflexivity|].
  simpl. intros [_ E]. exact (H E).
Qed.

Lemma get_apply_call (hooks : gmap Lifecycle (list HookFn)) (c : Call) (l : Lifecycle) :
  HookStore.get (apply_call hooks c) l
  = contribution Prepend l c ++ HookStore.get hooks l ++ contribution Append l c.
Proof.
  destruct c as [o p fs]. unfold apply_call.
  destruct (decide (p = l)) as [->|Hne].
  - destruct o.
    + rewrite contribution_same, (contribution_other_order Append Prepend) by discriminate.
      simpl. unfold HookStore.append, HookStore.get at 1.
      rewrite lookup_insert_eq. reflexivity.
    + rewrite contribution_same, (contribution_other_order Prepend Append) by discriminate.
      simpl. unfold HookStore.prepend, HookStore.get at 1.
      rewrite lookup_insert_eq, app_nil_r. reflexivity.
  - rewrite !contribution_other_phase by exact Hne.
    rewrite app_nil_r. simpl.
    destruct o; simpl; unfold HookStore.append, HookStore.prepend, HookStore.get at 1;
      rewrite lookup_insert_ne by done; reflexivity.
Qed.

Lemma get_apply_calls (calls : list Call) :
  forall (hooks : gmap Lifecycle (list HookFn)) (l : Lifecycle),
    HookStore.get (apply_calls calls hooks) l
    = prepended l calls ++ HookStore.get hooks l ++ appended l calls.
Proof.
  induction calls as [|c calls IH]; intros hooks l.
  - unfold prepended, appended. simpl. rewrite app_nil_r. reflexivity.
  - unfold apply_calls. simpl. fold (apply_calls calls (apply_call hooks c)).
    rewrite IH, get_apply_call.
    unfold prepended, appended. simpl.
    rewrite map_app, concat_app. simpl. rewrite app_nil_r.
    rewrite <- !app_assoc. reflexivity.
Qed.

(** C3. After any sequence of [append] and [prepend] calls on a fresh
    registry, a phase holds the hooks of its [prepend] calls, last call
    first, followed by the hooks of its [append] calls in call order; the
    hooks of one call keep their argument order. *)
Theorem C3_registration_order (calls : list Call) (lifecycle : Lifecycle) :
  HookStore.get (apply_calls calls ∅) lifecycle
  = prepended lifecycle calls ++ appended lifecycle calls.
Proof.
  rewrite get_apply_calls. unfold HookStore.get at 1.
  rewrite lookup_empty. reflexivity.
Qed.

(** ** Promise spines *)

Lemma graft_app (q : Promise) (l1 l2 : list Fn) :
  graft q (l1 ++ l2) = graft (graft q l1) l2.
Proof. unfold graft. apply fold_left_app. Qed.

Lemma leaf_graft (l : list Fn) : forall q, leaf (graft q l) = leaf q.
Proof. induction l as [|f l IH]; intros q; simpl; [reflexivity|]. rewrite IH. reflexivity. Qed.

Lemma fns_graft (l : list Fn) : forall q, fns (graft q l) = fns q ++ l.
Proof.
  induction l as [|f l IH]; intros q; simpl.
  - rewrite app_nil_r. reflexivity.
  - rewrite IH. simpl. rewrite <- app_assoc. reflexivity.
Qed.

Lemma leaf_promiseChain (l : list Fn) : leaf (promiseChain l) = Settled Fulfilled.
Proof. exact (leaf_graft l (Settled Fulfilled)). Qed.

Lemma fns_promiseChain (l : list Fn) : fns (promiseChain l) = l.
Proof. exact (fns_graft l (Settled Fulfilled)). Qed.

Lemma graft_leaf_fns (p : Promise) : graft (leaf p) (fns p) = p.
Proof.
  induction p as [o|h| |q IH fn]; try reflexivity.
  simpl. rewrite graft_app, IH. reflexivity.
Qed.

Lemma leaf_fns_inj (p q : Promise) : leaf p = leaf q -> fns p = fns q -> p = q.
Proof.
  intros Hl Hf. rewrite <- (graft_leaf_fns p), <- (graft_leaf_fns q), Hl, Hf. reflexivity.
Qed.

Lemma tick_spine (p : Promise) (s : State) : tick p s = tick_on_spine p s.
Proof.
  induction p as [o|h| |q IH fn]; try (destruct o as [|e]); try reflexivity.
  destruct q as [o|h| |q0 f0].
  - destruct o as [|e]; unfold tick_on_spine; simpl.
    + destruct (invoke fn s); reflexivity.
    + reflexivity.
  - reflexivity.
  - reflexivity.
  - change (tick (Then (Then q0 f0) fn) s)
      with (let '(q', s') := tick (Then q0 f0) s in (Then q' fn, s')).
    rewrite IH. unfold tick_on_spine.
    change (leaf (Then (Then q0 f0) fn)) with (leaf (Then q0 f0)).
    change (fns (Then (Then q0 f0) fn)) with (fns (Then q0 f0) ++ [fn]).
    assert (Hne : fns (Then q0 f0) <> []).
    { simpl. destruct (fns q0); discriminate. }
    destruct (fns (Then q0 f0)) as [|f rest]; [congruence|].
    destruct (leaf (Then q0 f0)) as [[|e]|h| |]; simpl; try reflexivity.
    + destruct (invoke f s) as [q1 s1]. rewrite graft_app. reflexivity.
    + rewrite graft_app. reflexivity.
Qed.

Lemma leaf_settle (o : Outcome) (p : Promise) :
  leaf (settle o p) = match leaf p with Pending _ => Settled o | l => l end.
Proof. induction p as [o'|h| |q IH fn]; simpl; try reflexivity. exact IH. Qed.

Lemma fns_settle (o : Outcome) (p : Promise) : fns (settle o p) = fns p.
Proof. induction p as [o'|h| |q IH fn]; simpl; try reflexivity. rewrite IH. reflexivity. Qed.

Lemma leaf_resolve_gate (p : Promise) :
  leaf (resolve_gate p) = match leaf p with Gate => Settled Fulfilled | l => l end.
Proof. induction p as [o'|h| |q IH fn]; simpl; try reflexivity. exact IH. Qed.

Lemma fns_resolve_gate (p : Promise) : fns (resolve_gate p) = fns p.
Proof. induction p as [o'|h| |q IH fn]; simpl; try reflexivity. rewrite IH. reflexivity. Qed.

(** ** Sequential runner *)

Lemma chain_step_represents (p : Promise) (s : State) (r : Runner)
    (started : list HookFn) (ev : ChainEv) :
  represents p r ->
  represents (fst (chain_step (p, s) ev)) (fst (runner_step (r, started) ev))
  /\ exists new,
      snd (runner_step (r, started) ev) = started ++ new
      /\ snd (chain_step (p, s) ev) = fold_left (fun t h => emit (Invoke h) t) new s.
Proof.
  intros Hr. destruct ev as [|x]; simpl.
  - rewrite tick_spine. unfold tick_on_spine.
    destruct r as [[|h rest]|h rest|e]; simpl in Hr.
    + destruct Hr as [Hl Hf]. rewrite Hl, Hf. simpl. split; [done|].
      exists []. rewrite app_nil_r. done.
    + destruct Hr as [Hl Hf]. rewrite Hl, Hf. simpl. split.
      * rewrite leaf_graft, fns_graft. done.
      * exists [h]. done.
    + destruct Hr as [Hl Hf]. rewrite Hl. simpl. split; [done|].
      exists []. rewrite app_nil_r. done.
    + destruct Hr as [Hl [rest Hf]]. rewrite Hl, Hf.
      destruct rest as [|h rest]; simpl.
      * split.
        { rewrite Hl, Hf. split; [done|]. exists (@nil HookFn). done. }
        exists []. rewrite app_nil_r. done.
      * split; [rewrite leaf_graft, fns_graft; simpl; eauto|].
        exists []. rewrite app_nil_r. done.
  - assert (Hnew : exists new : list HookFn,
               started = started ++ new
               /\ s = fold_left (fun t h => emit (Invoke h) t) new s).
    { exists []. rewrite app_nil_r. done. }
    destruct r as [rest|h rest|e]; simpl in Hr.
    + destruct Hr as [Hl Hf].
      destruct x; simpl; (split; [rewrite leaf_settle, fns_settle, Hl; done|exact Hnew]).
    + destruct Hr as [Hl Hf].
      destruct x; simpl; (split; [rewrite leaf_settle, fns_settle, Hl; eauto|exact Hnew]).
    + destruct Hr as [Hl Hf].
      destruct x; simpl; (split; [rewrite leaf_settle, fns_settle, Hl; done|exact Hnew]).
Qed.

Lemma chain_run_represents (evs : list ChainEv) :
  forall (p : Promise) (s : State) (r : Runner) (started : list HookFn),
    represents p r ->
    represents (fst (chain_run evs (p, s))) (fst (runner_run evs (r, started)))
    /\ exists new,
        snd (runner_run evs (r, started)) = started ++ new
        /\ snd (chain_run evs (p, s)) = fold_left (fun t h => emit (Invoke h) t) new s.
Proof.
  induction evs as [|ev evs IH]; intros p s r started Hr.
  - simpl. split; [exact Hr|]. exists []. rewrite app_nil_r. done.
  - destruct (chain_step_represents p s r started ev Hr) as [Hr1 [new1 [E1 T1]]].
    unfold chain_run, runner_run. simpl.
    fold (chain_run evs (chain_step (p, s) ev)).
    fold (runner_run evs (runner_step (r, started) ev)).
    destruct (chain_step (p, s) ev) as [p1 s1].
    destruct (runner_step (r, started) ev) as [r1 st1].
    simpl in Hr1, E1, T1.
    destruct (IH p1 s1 r1 st1 Hr1) as [Hr2 [new2 [E2 T2]]].
    split; [exact Hr2|]. exists (new1 ++ new2). split.
    + rewrite E2, E1, app_assoc. reflexivity.
    + rewrite T2, T1, fold_left_app. reflexivity.
Qed.

Lemma runner_step_wf (hs : list HookFn) (st : Runner * list HookFn) (ev : ChainEv) :
  runner_wf hs st -> runner_wf hs (runner_step st ev).
Proof.
  destruct st as [r started]. unfold runner_wf, runner_step. simpl.
  destruct ev as [|[|n]], r as [[|h rest]|h rest|e]; simpl; try tauto.
  - intros ->. split.
    + rewrite <- app_assoc. reflexivity.
    + exists started. reflexivity.
  - intros [-> _]. exists rest. reflexivity.
Qed.

Lemma runner_run_wf (hs : list HookFn) (evs : list ChainEv) :
  forall st, runner_wf hs st -> runner_wf hs (runner_run evs st).
Proof.
  induction evs as [|ev evs IH]; intros st H; [exact H|].
  apply IH, runner_step_wf, H.
Qed.

Lemma runner_run_failed (evs : list ChainEv) (e : Err) (started : list HookFn) :
  runner_run evs (Failed e, started) = (Failed e, started).
Proof.
  induction evs as [|ev evs IH]; [reflexivity|].
  unfold runner_run in *. simpl. destruct ev as [|[|n]]; exact IH.
Qed.

Lemma rejection_reaches_the_top (n : nat) :
  forall (p : Promise) (e : Err) (s : State),
    length (fns p) = n ->
    leaf p = Settled (Rejected e) ->
    chain_run (replicate n Job) (p, s) = (Settled (Rejected e), s).
Proof.
  induction n as [|n IH]; intros p e s Hn Hl.
  - simpl. f_equal. apply leaf_fns_inj; [exact Hl|].
    destruct (fns p); [reflexivity|discriminate].
  - unfold chain_run. simpl. rewrite tick_spine. unfold tick_on_spine. rewrite Hl.
    destruct (fns p) as [|f rest] eqn:Hf; [discriminate|].
    apply IH.
    + rewrite fns_graft. simpl. simpl in Hn. lia.
    + rewrite leaf_graft. reflexivity.
Qed.

(** C2. [promiseChain] on a list of hooks behaves as the sequential
    runner: under every schedule of jobs and settlements it is in the
    state of the reference runner, which starts the next hook only when
    no hook is awaited, has started a prefix of the list in list order,
    and starts nothing after a failure; the only effect on the controller
    is the calls of the started hooks; after a rejection no later event
    calls a hook and the chain ends rejected with that failure; a chain
    with nothing left, the empty list included, is the resolved promise. *)
Theorem C2_promiseChain_sequential :
  promiseChain [] = Settled Fulfilled
  /\ forall (hs : list HookFn) (evs : list ChainEv) (s : State),
      let ps := chain_run evs (promiseChain (map Fn_hook hs), s) in
      let rst := runner_run evs (Idle hs, []) in
      represents (fst ps) (fst rst)
      /\ runner_wf hs rst
      /\ snd ps = fold_left (fun t h => emit (Invoke h) t) (snd rst) s
      /\ match fst rst with
         | Idle [] => fst ps = Settled Fulfilled
         | Failed e =>
             chain_run (replicate (length (fns (fst ps))) Job) ps
               = (Settled (Rejected e), snd ps)
             /\ forall later, snd (chain_run later ps) = snd ps
         | _ => True
         end.
Proof.
  split; [reflexivity|].
  intros hs evs s ps rst.
  assert (H0 : represents (promiseChain (map Fn_hook hs)) (Idle hs)).
  { simpl. rewrite leaf_promiseChain, fns_promiseChain. done. }
  destruct (chain_run_represents evs _ s _ [] H0) as [Hr [new [E T]]].
  fold ps in Hr, T. fold rst in Hr, E. simpl in E.
  assert (Hwf : runner_wf hs rst) by (apply runner_run_wf; reflexivity).
  split; [exact Hr|]. split; [exact Hwf|]. split; [rewrite E; exact T|].
  destruct (fst rst) as [[|h rest]|h rest|e] eqn:Er; try exact I.
  - destruct Hr as [Hl Hf]. apply leaf_fns_inj; [exact Hl|exact Hf].
  - destruct Hr as [Hl Hrest]. split.
    + destruct ps as [p1 s1]. apply rejection_reaches_the_top; [reflexivity|exact Hl].
    + intros later. destruct ps as [p1 s1].
      destruct (chain_run_represents later p1 s1 (Failed e) [] (conj Hl Hrest))
        as [_ [new' [E' T']]].
      rewrite runner_run_failed in E'. simpl in E'. subst new'. exact T'.
Qed.

Arguments tick : simpl never.
Arguments stop : simpl never.
Arguments start : simpl never.

(** ** What a job leaves alone *)

Lemma invoke_frame (fn : Fn) (s : State) : same_frame s (snd (invoke fn s)).
Proof. destruct fn; repeat split. Qed.

Lemma tick_frame (p : Promise) (s : State) : same_frame s (snd (tick p s)).
Proof.
  rewrite tick_spine. unfold tick_on_spine.
  destruct (leaf p) as [[|e]|h| |]; try (repeat split; fail);
    destruct (fns p) as [|f rest]; try (repeat split; fail).
  pose proof (invoke_frame f s) as H. destruct (invoke f s). exact H.
Qed.

(** ** Single flight of [start] *)





(** ** Shutdown routine *)

(** C9. When the shutdown routine runs with code 0 while the run state is
    "stopping", it does not call [stop] (no promise is created or awaited,
    the run state and the pointer stay); without a force request it logs
    the warning and records the request, and the next such signal exits
    the process with code 0; with a force request already recorded it
    exits at once with code 0. *)
Theorem C9_repeated_graceful_signal (s : State) :
  exited s = None ->
  appState s = STOPPING ->
  let s1 := step s (Ev_signal 0) in
  (stopValue s1 = stopValue s /\ startValue s1 = startValue s
   /\ waiting s1 = waiting s /\ nextId s1 = nextId s
   /\ appState s1 = STOPPING /\ current s1 = current s)
  /\ (if forceShutdown s
      then exited s1 = Some 0 /\ trace s1 = trace s ++ [Newline; Exit 0]
      else exited s1 = None
           /\ forceShutdown s1 = true
           /\ trace s1 = trace s ++ [Newline; Log_warn M_repeat]
           /\ exited (step s1 (Ev_signal 0)) = Some 0).
Proof.
  intros Hx Hs s1. subst s1. unfold step. rewrite Hx.
  unfold shutdown. simpl. rewrite Hs. simpl.
  destruct (forceShutdown s) eqn:Hf; simpl.
  - rewrite <- app_assoc. repeat split; assumption.
  - rewrite Hx, Hs. simpl. rewrite <- app_assoc. repeat split; assumption.
Qed.

Lemma C9_repeated_graceful_signal_witness :
  let s := run mid_shutdown init in
  (exited s = None /\ appState s = STOPPING /\ forceShutdown s = false)
  /\ exited (step s (Ev_signal 0)) = None
  /\ exited (step (step s (Ev_signal 0)) (Ev_signal 0)) = Some 0.
Proof.
  intros s.
  assert (Hx : exited s = None) by (vm_compute; reflexivity).
  assert (Hs : appState s = STOPPING) by (vm_compute; reflexivity).
  assert (Hf : forceShutdown s = false) by (vm_compute; reflexivity).
  split; [repeat split; assumption|].
  pose proof (C9_repeated_graceful_signal s Hx Hs) as H.
  cbv zeta in H. rewrite Hf in H.
  destruct H as [_ [H1 [_ [_ H2]]]]. split; assumption.
Defined.

(** ** The invariant holds in every reachable state *)

Lemma Inv_init : Inv init.
Proof.
  split; simpl; try done.
  - intros _. repeat split. intros l H. inversion H.
  - intros _. left. reflexivity.
  - intros _. split; intros H; inversion H.
Qed.

(** The invariant reads five fields only. *)
Lemma Inv_fields (s s' : State) :
  appState s' = appState s -> current s' = current s ->
  startValue s' = startValue s -> stopValue s' = stopValue s ->
  trace s' = trace s ->
  Inv s -> Inv s'.
Proof.
  intros E1 E2 E3 E4 E5 [A B C D D' E F G].
  split; rewrite ?E1, ?E2, ?E3, ?E4, ?E5; assumption.
Qed.

Lemma not_elem_of_snoc (o o' : Obs) (t : list Obs) :
  o <> o' -> o ∉ t -> o ∉ t ++ [o'].
Proof.
  intros Hne Hn H. apply elem_of_app in H as [H|H]; [exact (Hn H)|].
  apply list_elem_of_singleton in H. exact (Hne H).
Qed.

(** Logging, or calling a hook, adds no phase marker. *)
Lemma Inv_emit (o : Obs) (s : State) :
  (forall l, o <> Run_phase l) -> Inv s -> Inv (emit o s).
Proof.
  intros Ho [A B C D D' E F G]. split; simpl; try assumption.
  - intros H. destruct (A H) as [H1 [H2 H3]]. repeat split; try assumption.
    intros l. apply not_elem_of_snoc; [apply not_eq_sym, Ho|apply H3].
  - intros i p H. destruct (C i p H) as [H1 [hs [n [H2 H3]]]].
    split; [exact H1|]. exists hs, n. split; [exact H2|].
    intros l Hl. apply not_elem_of_snoc; [apply not_eq_sym, Ho|apply H3, Hl].
  - intros H. destruct (G H) as [H1 H2].
    split; (apply not_elem_of_snoc; [apply not_eq_sym, Ho|assumption]).
Qed.

Lemma map_chain_None (f : Promise -> Promise) (v : option PromiseObj) :
  map_chain f v = None -> v = None.
Proof. destruct v as [[i [p| |o]]|]; simpl; congruence. Qed.

Lemma map_chain_AwaitChain (f : Promise -> Promise) (v : option PromiseObj) i p :
  map_chain f v = Some (mkPromiseObj i (AwaitChain p)) ->
  exists q, v = Some (mkPromiseObj i (AwaitChain q)) /\ p = f q.
Proof.
  destruct v as [[j [q| |o]]|]; simpl; intros H; inversion H; subst.
  exists q. split; reflexivity.
Qed.

Lemma outcome_of_map_chain (f : Promise -> Promise) (v : option PromiseObj) :
  outcome_of (map_chain f v) = outcome_of v.
Proof. destruct v as [[j [q| |o]]|]; reflexivity. Qed.

Lemma stop_unused_map_chain (f : Promise -> Promise) (v : option PromiseObj) :
  stop_unused (map_chain f v) -> stop_unused v.
Proof.
  destruct v as [[j [q| |o]]|]; simpl; try tauto.
  intros [H|[i H]]; discriminate.
Qed.

(** Rewriting the bottom of the chain of [start] keeps the invariant when
    the functions to call are kept. *)
Lemma Inv_map_start (f : Promise -> Promise) (s : State) :
  (forall p, fns (f p) = fns p) ->
  (forall p, hook_leaf p -> hook_leaf (f p)) ->
  Inv s -> Inv (set_startValue (map_chain f (startValue s)) s).
Proof.
  intros Hf Hl [A B C D D' E F G]. split; simpl; try assumption.
  - intros H. apply A, (map_chain_None f), H.
  - intros i p H. apply map_chain_AwaitChain in H as [q [H ->]].
    destruct (C i q H) as [H1 H2]. split; [apply Hl, H1|]. rewrite Hf. exact H2.
  - rewrite outcome_of_map_chain. exact E.
Qed.

Lemma Inv_map_stop (f : Promise -> Promise) (s : State) :
  (forall p, fns (f p) = fns p) ->
  (forall p, hook_leaf p -> hook_leaf (f p)) ->
  Inv s -> Inv (set_stopValue (map_chain f (stopValue s)) s).
Proof.
  intros Hf Hl [A B C D D' E F G]. split; simpl; try assumption.
  - intros H. apply B in H. destruct H as [H|[i H]]; rewrite H; [left|right; exists i]; reflexivity.
  - intros i p H. apply map_chain_AwaitChain in H as [q [H ->]].
    destruct (D i q H) as [H1 H2]. split; [apply Hl, H1|]. rewrite Hf. exact H2.
  - intros i H. destruct (stopValue s) as [[j [q| |o]]|] eqn:Es; simpl in H; try discriminate.
    inversion H; subst. exact (D' i eq_refl).
  - rewrite outcome_of_map_chain. exact F.
  - intros H. apply G, (stop_unused_map_chain f), H.
Qed.

Lemma hook_leaf_resolve_gate (p : Promise) : hook_leaf p -> hook_leaf (resolve_gate p).
Proof.
  unfold hook_leaf. rewrite leaf_resolve_gate. destruct (leaf p) as [[|[]]| | |]; tauto.
Qed.

Lemma hook_leaf_settle (r : Settlement) (p : Promise) :
  hook_leaf p -> hook_leaf (settle (settled r) p).
Proof.
  unfold hook_leaf. rewrite leaf_settle.
  destruct (leaf p) as [[|[]]| | |], r; simpl; tauto.
Qed.

Lemma stop_chain_fns (c : option Lifecycle) :
  let '(c1, t1) := transition c SHUTTING_DOWN in
  let '(c2, t2) := transition c1 TERMINATED in
  Forall stop_fn ([Fn_status STOPPING] ++ t1 ++ t2 ++ [Fn_status STOPPED]).
Proof. destruct c as [[]|]; vm_compute; repeat constructor. Qed.

Lemma Inv_stop (s : State) : Inv s -> Inv (fst (stop s)).
Proof.
  intros HI. unfold stop, memo. destruct (stopValue s) as [v|] eqn:Es; [exact HI|].
  unfold stop_body. destruct (decide (appState s = IDLE)) as [Hi|Hi].
  - destruct HI as [A B C D D' E F G]. split; simpl; try assumption; try discriminate.
    + intros _. right. eexists. reflexivity.
    + intros _. apply G. rewrite Es. left. reflexivity.
  - set (s0 := if release s
               then set_release false
                      (set_startValue (map_chain resolve_gate (startValue s)) s)
               else s).
    assert (H0 : Inv s0 /\ appState s0 = appState s /\ current s0 = current s
                 /\ stopValue s0 = None).
    { subst s0. destruct (release s); [|split; [exact HI|repeat split; exact Es]].
      split; [|repeat split; exact Es].
      apply (Inv_fields (set_startValue (map_chain resolve_gate (startValue s)) s));
        try reflexivity.
      apply Inv_map_start; [apply fns_resolve_gate|apply hook_leaf_resolve_gate|exact HI]. }
    destruct H0 as [HI0 [Ea [Ec Es0]]].
    assert (HI1 : Inv (emit (Log_info M_stopping) s0)) by (apply Inv_emit; [discriminate|exact HI0]).
    change (current (emit (Log_info M_stopping) s0)) with (current s0).
    pose proof (stop_chain_fns (current s0)) as Hfns.
    destruct (transition (current s0) SHUTTING_DOWN) as [c1 t1].
    destruct (transition c1 TERMINATED) as [c2 t2].
    destruct HI1 as [A B C D D' E F G]. simpl in *.
    split; simpl; try assumption; try discriminate.
    + intros H. destruct (A H) as [H1 _]. congruence.
    + intros H. congruence.
    + intros i p H. inversion H; subst. split.
      * unfold hook_leaf. rewrite leaf_promiseChain. exact I.
      * rewrite fns_promiseChain. exact Hfns.
    + intros [H|[i H]]; discriminate.
Qed.

Lemma Inv_set_appState (v : AppState) (s : State) :
  v <> IDLE -> startValue s <> None -> Inv s -> Inv (set_appState v s).
Proof.
  intros Hv Hs [A B C D D' E F G]. split; simpl; try assumption.
  - intros H. contradiction.
  - intros H. contradiction.
Qed.

Lemma Inv_set_start_chain (i : nat) (p : Promise) (s : State) :
  hook_leaf p ->
  (exists hs n, fns p = map Fn_hook hs ++ drop n startFns
                /\ forall l, Fn_phase l ∈ drop n startFns -> Run_phase l ∉ trace s) ->
  Inv s -> Inv (set_startValue (Some (mkPromiseObj i (AwaitChain p))) s).
Proof.
  intros Hl Hc [A B C D D' E F G]. split; simpl; try assumption; try discriminate.
  intros j q H. inversion H; subst. split; assumption.
Qed.

Lemma Inv_set_start_act (i : nat) (a : Act) (s : State) :
  match a with
  | AwaitChain _ => False
  | AwaitStop => True
  | Finished o => o <> Rejected AlreadyStarted
  end ->
  Inv s -> Inv (set_startValue (Some (mkPromiseObj i a)) s).
Proof.
  intros Ha [A B C D D' E F G]. split; simpl; try assumption; try discriminate.
  - intros j q H. inversion H; subst. contradiction.
  - destruct a; try discriminate. intros H. inversion H; subst. contradiction.
Qed.

Lemma Inv_set_stop_chain (i : nat) (p : Promise) (s : State) :
  appState s <> IDLE -> hook_leaf p -> Forall stop_fn (fns p) ->
  Inv s -> Inv (set_stopValue (Some (mkPromiseObj i (AwaitChain p))) s).
Proof.
  intros Ha Hl Hc [A B C D D' E F G]. split; simpl; try assumption; try discriminate.
  - intros H. contradiction.
  - intros j q H. inversion H; subst. split; assumption.
  - intros [H|[j H]]; discriminate.
Qed.

Lemma Inv_set_stop_finished (i : nat) (o : Outcome) (s : State) :
  appState s <> IDLE ->
  o <> Rejected AlreadyStarted -> o <> Rejected NotRunning ->
  Inv s -> Inv (set_stopValue (Some (mkPromiseObj i (Finished o))) s).
Proof.
  intros Ha H1 H2 [A B C D D' E F G]. split; simpl; try assumption; try discriminate.
  - intros H. contradiction.
  - intros H. inversion H; subst. contradiction.
  - intros [H|[j H]]; [discriminate|]. inversion H; subst. contradiction.
Qed.

(** The phases of the chain of [start], by their place in [startFns]. *)
Lemma tail_phase (n : nat) (l : Lifecycle) :
  Fn_phase l ∈ drop n startFns -> l <> SHUTTING_DOWN /\ l <> TERMINATED.
Proof.
  intros H. assert (H' : Fn_phase l ∈ startFns).
  { eapply subseteq_drop, H. }
  unfold startFns in H'.
  repeat (apply elem_of_cons in H' as [H'|H']; [inversion H'; subst; split; discriminate|]);
    try discriminate.
  inversion H'.
Qed.

Lemma head_tail (n : nat) (f : Fn) (rest : list Fn) :
  drop n startFns = f :: rest ->
  rest = drop (S n) startFns
  /\ (f = Fn_status STARTING \/ f = Fn_started
      \/ exists l, f = Fn_phase l /\ Fn_phase l ∉ rest).
Proof.
  intros H.
  do 6 (destruct n as [|n];
        [inversion H; subst; split; [reflexivity|];
         first [left; reflexivity | right; left; reflexivity
               | right; right; eexists; split; [reflexivity|];
                 intros K; simpl in K;
                 repeat (apply elem_of_cons in K as [K|K]; [discriminate|]);
                 inversion K]|]).
  unfold startFns in H. simpl in H. destruct n; discriminate.
Qed.

Lemma tail_subset (n : nat) (f : Fn) :
  f ∈ drop (S n) startFns -> f ∈ drop n startFns.
Proof.
  intros H. destruct (drop n startFns) as [|g rest] eqn:E.
  - rewrite <- (Nat.add_1_r n), <- drop_drop, E in H. exact H.
  - rewrite <- (Nat.add_1_r n), <- drop_drop, E in H. simpl in H.
    rewrite drop_0 in H. apply elem_of_cons. right. exact H.
Qed.

Lemma chain_shape (f : Fn) (rest : list Fn) (hs : list HookFn) (n : nat) :
  f :: rest = map Fn_hook hs ++ drop n startFns ->
  (exists h hs', hs = h :: hs' /\ f = Fn_hook h
                 /\ rest = map Fn_hook hs' ++ drop n startFns)
  \/ (hs = [] /\ drop n startFns = f :: rest).
Proof.
  destruct hs as [|h hs']; simpl; intros H.
  - right. split; [reflexivity|]. symmetry. exact H.
  - left. inversion H; subst. exists h, hs'. repeat split.
Qed.

Lemma Inv_start_phase (l : Lifecycle) (i : nat) (p : Promise) (s : State) :
  l <> SHUTTING_DOWN -> l <> TERMINATED ->
  hook_leaf p ->
  (exists hs n, fns p = map Fn_hook hs ++ drop n startFns
                /\ forall l', Fn_phase l' ∈ drop n startFns ->
                              (Run_phase l' ∉ trace s) /\ l' <> l) ->
  Inv s ->
  Inv (set_startValue (Some (mkPromiseObj i (AwaitChain p))) (emit (Run_phase l) s)).
Proof.
  intros H1 H2 Hl [hs [n [Hf Ht]]] [A B C D D' E F G].
  split; simpl; try assumption; try discriminate.
  - intros j q H. inversion H; subst. split; [exact Hl|].
    exists hs, n. split; [exact Hf|]. intros l' Hl'. destruct (Ht l' Hl') as [K1 K2].
    apply not_elem_of_snoc; [congruence|exact K1].
  - intros H. destruct (G H) as [K1 K2].
    split; (apply not_elem_of_snoc; [congruence|assumption]).
Qed.

Lemma Inv_stop_phase (l : Lifecycle) (i : nat) (p : Promise) (s : State) :
  l = SHUTTING_DOWN \/ l = TERMINATED ->
  startValue s <> None -> appState s <> IDLE ->
  hook_leaf p -> Forall stop_fn (fns p) ->
  Inv s ->
  Inv (set_stopValue (Some (mkPromiseObj i (AwaitChain p))) (emit (Run_phase l) s)).
Proof.
  intros Hl Hs Ha Hp Hf [A B C D D' E F G].
  split; simpl; try assumption; try discriminate.
  - intros H. contradiction.
  - intros H. contradiction.
  - intros j q H. destruct (C j q H) as [K1 [hs [n [K2 K3]]]]. split; [exact K1|].
    exists hs, n. split; [exact K2|]. intros l' Hl'.
    destruct (tail_phase n l' Hl') as [N1 N2].
    apply not_elem_of_snoc; [|exact (K3 l' Hl')].
    destruct Hl as [-> | ->]; congruence.
  - intros j q H. inversion H; subst. split; assumption.
  - intros [H|[j H]]; discriminate.
Qed.

Lemma Inv_start_tick (i : nat) (p : Promise) (s : State) :
  Inv s ->
  startValue s = Some (mkPromiseObj i (AwaitChain p)) ->
  Inv (set_startValue (Some (mkPromiseObj i (AwaitChain (fst (tick p s)))))
         (snd (tick p s))).
Proof.
  intros HI Hs. rewrite tick_spine. unfold tick_on_spine.
  destruct (inv_start s HI i p Hs) as [Hl [hs [n [Hf Ht]]]].
  assert (Hsame : Inv (set_startValue (Some (mkPromiseObj i (AwaitChain p))) s)).
  { apply Inv_set_start_chain; [exact Hl| |exact HI]. exists hs, n. split; assumption. }
  assert (Hsome : startValue s <> None) by (rewrite Hs; discriminate).
  unfold hook_leaf in Hl.
  destruct (leaf p) as [[|e]|h| |] eqn:El; try exact Hsame.
  - destruct (fns p) as [|f rest] eqn:Ef; [exact Hsame|].
    apply chain_shape in Hf as [[h [hs' [-> [-> Hr]]]]|[-> Hd]].
    + simpl. apply Inv_set_start_chain.
      * unfold hook_leaf. rewrite leaf_graft. exact I.
      * exists hs', n. rewrite fns_graft. simpl. split; [exact Hr|].
        intros l Hl'. apply not_elem_of_snoc; [discriminate|exact (Ht l Hl')].
      * apply Inv_emit; [discriminate|exact HI].
    + pose proof Hd as Hd'. apply head_tail in Hd' as [Hr [->|[->|[l [-> Hn]]]]].
      * simpl. apply Inv_set_start_chain.
        -- unfold hook_leaf. rewrite leaf_graft. exact I.
        -- exists [], (S n). rewrite fns_graft. simpl. split; [exact Hr|].
           intros l Hl'. apply Ht, tail_subset, Hl'.
        -- apply Inv_set_appState; [discriminate|exact Hsome|exact HI].
      * simpl.
        apply (Inv_fields
                 (set_startValue (Some (mkPromiseObj i (AwaitChain (graft Gate rest))))
                    (set_appState STARTED (emit (Log_info M_started) s))));
          try reflexivity.
        apply Inv_set_start_chain.
        -- unfold hook_leaf. rewrite leaf_graft. exact I.
        -- exists [], (S n). rewrite fns_graft. simpl. split; [exact Hr|].
           intros l Hl'. apply not_elem_of_snoc; [discriminate|].
           apply Ht, tail_subset, Hl'.
        -- apply Inv_set_appState; [discriminate|exact Hsome|].
           apply Inv_emit; [discriminate|exact HI].
      * simpl.
        assert (Hin : Fn_phase l ∈ drop n startFns) by (rewrite Hd; apply elem_of_cons; by left).
        destruct (tail_phase n l Hin) as [N1 N2].
        apply Inv_start_phase; try assumption.
        -- unfold hook_leaf. rewrite leaf_graft, leaf_promiseChain. exact I.
        -- exists (HookStore.get (hooks s) l), (S n).
           rewrite fns_graft, fns_promiseChain. split; [rewrite Hr; reflexivity|].
           intros l' Hl'. split; [apply Ht, tail_subset, Hl'|].
           intros ->. rewrite <- Hr in Hl'. exact (Hn Hl').
  - destruct (fns p) as [|f rest] eqn:Ef; [exact Hsame|]. simpl.
    apply Inv_set_start_chain; [| |exact HI].
    + unfold hook_leaf. rewrite leaf_graft. exact Hl.
    + rewrite fns_graft. simpl.
      apply chain_shape in Hf as [[h [hs' [-> [-> Hr]]]]|[-> Hd]].
      * exists hs', n. split; assumption.
      * apply head_tail in Hd as [Hr _]. exists [], (S n). split; [exact Hr|].
        intros l Hl'. apply Ht, tail_subset, Hl'.
Qed.

Lemma stop_chain_not_idle (i : nat) (a : Act) (s : State) :
  Inv s -> stopValue s = Some (mkPromiseObj i a) ->
  a <> Finished (Rejected NotRunning) ->
  appState s <> IDLE /\ startValue s <> None.
Proof.
  intros HI Hs Ha.
  assert (H1 : appState s <> IDLE).
  { intros H. destruct (inv_idle s HI H) as [K|[j K]]; rewrite Hs in K; [discriminate|].
    inversion K; subst. contradiction. }
  split; [exact H1|]. intros H. apply H1. exact (proj1 (inv_fresh s HI H)).
Qed.

Lemma Inv_stop_tick (i : nat) (p : Promise) (s : State) :
  Inv s ->
  stopValue s = Some (mkPromiseObj i (AwaitChain p)) ->
  Inv (set_stopValue (Some (mkPromiseObj i (AwaitChain (fst (tick p s)))))
         (snd (tick p s))).
Proof.
  intros HI Hs. rewrite tick_spine. unfold tick_on_spine.
  destruct (inv_stop s HI i p Hs) as [Hl Hf].
  destruct (stop_chain_not_idle i _ s HI Hs ltac:(discriminate)) as [Ha Hsome].
  assert (Hsame : Inv (set_stopValue (Some (mkPromiseObj i (AwaitChain p))) s)).
  { apply Inv_set_stop_chain; assumption. }
  unfold hook_leaf in Hl.
  destruct (leaf p) as [[|e]|h| |] eqn:El; try exact Hsame.
  - destruct (fns p) as [|f rest] eqn:Ef; [exact Hsame|].
    apply Forall_cons in Hf as [Hf1 Hf2].
    assert (Hgraft : forall q, fns q = [] -> Forall stop_fn (fns (graft q rest))).
    { intros q Hq. rewrite fns_graft, Hq. exact Hf2. }
    destruct f as [[]|[]| |h]; simpl in Hf1; try contradiction; simpl.
    + apply Inv_set_stop_chain; [discriminate| |apply Hgraft; reflexivity|].
      * unfold hook_leaf. rewrite leaf_graft. exact I.
      * apply Inv_set_appState; [discriminate|exact Hsome|exact HI].
    + apply Inv_set_stop_chain; [discriminate| |apply Hgraft; reflexivity|].
      * unfold hook_leaf. rewrite leaf_graft. exact I.
      * apply Inv_set_appState; [discriminate|exact Hsome|exact HI].
    + apply Inv_stop_phase; try assumption; [by left| |].
      * unfold hook_leaf. rewrite leaf_graft, leaf_promiseChain. exact I.
      * rewrite fns_graft, fns_promiseChain. apply Forall_app. split; [|exact Hf2].
        apply Forall_forall. intros x Hx. apply list_elem_of_fmap in Hx as [h [-> _]]. exact I.
    + apply Inv_stop_phase; try assumption; [by right| |].
      * unfold hook_leaf. rewrite leaf_graft, leaf_promiseChain. exact I.
      * rewrite fns_graft, fns_promiseChain. apply Forall_app. split; [|exact Hf2].
        apply Forall_forall. intros x Hx. apply list_elem_of_fmap in Hx as [h [-> _]]. exact I.
    + apply Inv_set_stop_chain; [exact Ha| |apply Hgraft; reflexivity|].
      * unfold hook_leaf. rewrite leaf_graft. exact I.
      * apply Inv_emit; [discriminate|exact HI].
  - destruct (fns p) as [|f rest] eqn:Ef; [exact Hsame|]. simpl.
    apply Forall_cons in Hf as [Hf1 Hf2].
    apply Inv_set_stop_chain; [exact Ha| | |exact HI].
    + unfold hook_leaf. rewrite leaf_graft. exact Hl.
    + rewrite fns_graft. exact Hf2.
Qed.

Lemma Inv_set_current (c : option Lifecycle) (s : State) :
  startValue s <> None -> Inv s -> Inv (set_current c s).
Proof.
  intros Hs [A B C D D' E F G]. split; simpl; try assumption.
  intros H. contradiction.
Qed.

Lemma start_body_fresh (s : State) :
  appState s = IDLE -> current s = None ->
  start_body s
  = (set_current (Some RUNNING) (emit (Log_info M_starting) s),
     AwaitChain (promiseChain startFns)).
Proof.
  intros Ha Hc. unfold start_body.
  destruct (decide (appState s = IDLE)); [|contradiction].
  simpl. rewrite Hc. reflexivity.
Qed.

Lemma Inv_start (s : State) : Inv s -> Inv (fst (start s)).
Proof.
  intros HI. unfold start, memo. destruct (startValue s) as [v|] eqn:Es; [exact HI|].
  destruct (inv_fresh s HI Es) as [Ha [Hc Ht]].
  rewrite (start_body_fresh s Ha Hc). simpl.
  apply (Inv_fields
           (set_current (Some RUNNING)
              (set_startValue
                 (Some (mkPromiseObj (nextId s) (AwaitChain (promiseChain startFns))))
                 (emit (Log_info M_starting) s))));
    try reflexivity.
  apply Inv_set_current; [discriminate|].
  apply Inv_set_start_chain.
  - unfold hook_leaf. rewrite leaf_promiseChain. exact I.
  - exists [], 0%nat. rewrite fns_promiseChain. split; [reflexivity|].
    intros l _. simpl. apply not_elem_of_snoc; [discriminate|apply Ht].
  - apply Inv_emit; [discriminate|exact HI].
Qed.

Lemma Inv_start_job (s : State) : Inv s -> Inv (start_job s).
Proof.
  intros HI. unfold start_job.
  destruct (startValue s) as [[i [p| |o]]|] eqn:Es; try exact HI.
  - pose proof (Inv_start_tick i p s HI Es) as Htick.
    destruct p as [[|e]|h| |q fn];
      try (destruct (tick _ s) as [p' s']; exact Htick).
    + apply (Inv_set_start_act i (Finished Fulfilled)); [simpl; discriminate|exact HI].
    + pose proof (Inv_stop (emit (Log_error e) s)
                    (Inv_emit (Log_error e) s ltac:(discriminate) HI)) as K.
      destruct (stop (emit (Log_error e) s)) as [s2 j]. simpl in K.
      apply (Inv_set_start_act i AwaitStop); [exact I|exact K].
  - destruct (stopValue s) as [[j [p| |o]]|] eqn:Et; try exact HI.
    apply (Inv_set_start_act i (Finished o)); [simpl|exact HI].
    pose proof (inv_stop_outcome s HI) as K. rewrite Et in K. simpl in K. congruence.
Qed.

Lemma Inv_stop_job (s : State) : Inv s -> Inv (stop_job s).
Proof.
  intros HI. unfold stop_job.
  destruct (stopValue s) as [[i [p| |o]]|] eqn:Es; try exact HI.
  pose proof (Inv_stop_tick i p s HI Es) as Htick.
  destruct (stop_chain_not_idle i _ s HI Es ltac:(discriminate)) as [Ha Hsome].
  destruct (inv_stop s HI i p Es) as [Hl _].
  destruct p as [[|e]|h| |q fn];
    try (destruct (tick _ s) as [p' s']; exact Htick).
  - apply (Inv_fields (set_stopValue (Some (mkPromiseObj i (Finished Fulfilled))) s));
      try reflexivity.
    apply Inv_set_stop_finished; [exact Ha|discriminate|discriminate|exact HI].
  - unfold hook_leaf in Hl. simpl in Hl.
    apply Inv_set_stop_finished; [exact Ha| | |exact HI]; destruct e; try contradiction; discriminate.
Qed.

Lemma Inv_process_exit (code : Z) (s : State) : Inv s -> Inv (process_exit code s).
Proof.
  intros HI. apply (Inv_fields (emit (Exit code) s)); try reflexivity.
  apply Inv_emit; [discriminate|exact HI].
Qed.

Lemma Inv_shutdown (code : Z) (s : State) : Inv s -> Inv (shutdown code s).
Proof.
  intros HI. unfold shutdown.
  set (s2 := set_deadlines (deadlines (emit Newline s) ++ [code]) (emit Newline s)).
  assert (H2 : Inv s2).
  { apply (Inv_fields (emit Newline s)); try reflexivity.
    apply Inv_emit; [discriminate|exact HI]. }
  destruct (bool_decide (appState s2 = STOPPING) && (code =? 0)).
  - destruct (forceShutdown s2); [apply Inv_process_exit, H2|].
    apply (Inv_fields (emit (Log_warn M_repeat) s2)); try reflexivity.
    apply Inv_emit; [discriminate|exact H2].
  - destruct (decide (appState s2 = STOPPED)); [apply Inv_process_exit, H2|].
    pose proof (Inv_stop s2 H2) as K. destruct (stop s2) as [s3 j]. simpl in K.
    apply (Inv_fields s3); try reflexivity. exact K.
Qed.

Lemma Inv_shutdown_job (s : State) : Inv s -> Inv (shutdown_job s).
Proof.
  intros HI. unfold shutdown_job. destruct (waiting s) as [|code rest]; [exact HI|].
  destruct (stopValue s) as [[j [p| |o]]|]; try exact HI.
  apply Inv_process_exit.
  assert (H1 : Inv (set_waiting rest s)) by (apply (Inv_fields s); try reflexivity; exact HI).
  destruct o as [|e]; [exact H1|]. apply Inv_emit; [discriminate|exact H1].
Qed.

Lemma Inv_step (s : State) (ev : Event) : Inv s -> Inv (step s ev).
Proof.
  intros HI. unfold step. destruct (exited s); [exact HI|].
  destruct ev as [| |l fn o|code| | |r|r| |code|].
  - apply Inv_start, HI.
  - apply Inv_stop, HI.
  - apply (Inv_fields s); try reflexivity. exact HI.
  - apply Inv_shutdown, HI.
  - apply Inv_start_job, HI.
  - apply Inv_stop_job, HI.
  - apply Inv_map_start; [apply fns_settle|apply hook_leaf_settle|exact HI].
  - apply Inv_map_stop; [apply fns_settle|apply hook_leaf_settle|exact HI].
  - apply Inv_shutdown_job, HI.
  - destruct (bool_decide _); [|exact HI].
    apply Inv_process_exit, Inv_emit; [discriminate|exact HI].
  - destruct (diagnostic s); [|exact HI].
    apply (Inv_fields (emit (Log_warn M_keeps_alive) s)); try reflexivity.
    apply Inv_emit; [discriminate|exact HI].
Qed.

Lemma Inv_run (evs : list Event) : forall s, Inv s -> Inv (run evs s).
Proof.
  induction evs as [|ev evs IH]; intros s HI; [exact HI|].
  apply IH, Inv_step, HI.
Qed.

Lemma Inv_reachable (s : State) : reachable s -> Inv s.
Proof. intros [evs ->]. apply Inv_run, Inv_init. Qed.

(** ** Re-entry *)

Lemma reachable_init : reachable init.
Proof. exists []. reflexivity. Qed.

Lemma reachable_run (evs : list Event) (s : State) :
  reachable s -> reachable (run evs s).
Proof.
  intros [evs0 ->]. exists (evs0 ++ evs). unfold run. rewrite fold_left_app. reflexivity.
Qed.

Lemma start_settled (s : State) (i : nat) (a : Act) :
  startValue s = Some (mkPromiseObj i a) -> start s = (s, i).
Proof. intros H. unfold start, memo. rewrite H. reflexivity. Qed.

Lemma stop_settled (s : State) (i : nat) (a : Act) :
  stopValue s = Some (mkPromiseObj i a) -> stop s = (s, i).
Proof. intros H. unfold stop, memo. rewrite H. reflexivity. Qed.

(** C7. A call of [stop] while the run state is idle is rejected with the
    "not running" error and makes no transition: the pointer, the run
    state, the registry, the promise of [start] and the trace (so no
    teardown phase and no hook) are as before the call. *)
Theorem C7_stop_while_idle (s : State) :
  reachable s ->
  exited s = None ->
  appState s = IDLE ->
  let s' := step s Ev_stop in
  outcome_of (stopValue s') = Some (Rejected NotRunning)
  /\ current s' = current s /\ appState s' = IDLE
  /\ trace s' = trace s /\ hooks s' = hooks s /\ startValue s' = startValue s.
Proof.
  intros Hr Hx Ha s'. subst s'. unfold step. rewrite Hx.
  destruct (inv_idle s (Inv_reachable s Hr) Ha) as [H|[i H]].
  - unfold stop, memo. rewrite H. unfold stop_body.
    destruct (decide (appState s = IDLE)); [|contradiction].
    simpl. repeat split; assumption.
  - rewrite (stop_settled s i _ H). simpl. rewrite H. repeat split; assumption.
Qed.

Lemma C7_stop_while_idle_witness :
  outcome_of (stopValue (step init Ev_stop)) = Some (Rejected NotRunning)
  /\ current (step init Ev_stop) = None
  /\ trace (step init Ev_stop) = [].
Proof.
  pose proof (C7_stop_while_idle init reachable_init eq_refl eq_refl) as H.
  simpl in H. destruct H as [H1 [H2 [_ [H3 _]]]]. repeat split; assumption.
Defined.

(** C5, the defect. The body of [start] begins with the guard that throws
    "The application has already started." when the run state is not
    idle, but [memo] runs that body on the first call only: when the first
    call of [start] has completed with some outcome, a second call
    returns the promise of the first call, changes nothing in the
    controller (it runs no hook), and its caller observes the outcome of
    the first call, which is never the "already started" error. The guard
    can never fire; the guard of [stop], written the same way, can. *)
Theorem C5_second_start_is_memoised (s : State) (o : Outcome) :
  reachable s ->
  outcome_of (startValue s) = Some o ->
  step s Ev_start = s
  /\ fst (start s) = s
  /\ pid <$> startValue s = Some (snd (start s))
  /\ outcome_of (startValue (fst (start s))) = Some o
  /\ o <> Rejected AlreadyStarted.
Proof.
  intros Hr Ho.
  destruct (startValue s) as [[i a]|] eqn:Es; [|discriminate].
  assert (E : start s = (s, i)) by (apply (start_settled s i a), Es).
  split.
  { unfold step. destruct (exited s); [reflexivity|]. rewrite E. reflexivity. }
  rewrite E. simpl. rewrite Es. repeat split; try assumption.
  pose proof (inv_start_outcome s (Inv_reachable s Hr)) as K.
  rewrite Es in K. congruence.
Qed.

Lemma C5_second_start_is_memoised_witness :
  let s := run completed_start init in
  outcome_of (startValue s) = Some Fulfilled /\ step s Ev_start = s.
Proof.
  intros s.
  assert (Ho : outcome_of (startValue s) = Some Fulfilled) by (vm_compute; reflexivity).
  split; [exact Ho|].
  exact (proj1 (C5_second_start_is_memoised s Fulfilled
                  (reachable_run completed_start init reachable_init) Ho)).
Defined.

(** C5 at the failing input: after a first call that has completed (the
    controller has started and stopped), the second call does not fail
    with "already started"; its caller sees the resolved promise of the
    first call. *)
Lemma C5_counterexample :
  let s := run completed_start init in
  exited s = None
  /\ outcome_of (startValue s) = Some Fulfilled
  /\ outcome_of (startValue (step s Ev_start)) = Some Fulfilled
  /\ outcome_of (startValue (step s Ev_start)) <> Some (Rejected AlreadyStarted).
Proof. vm_compute. repeat split; discriminate. Qed.

(** ** A settled [stop] stays settled *)

Lemma start_keeps_stopValue (s : State) : stopValue (fst (start s)) = stopValue s.
Proof.
  unfold start, memo. destruct (startValue s); [reflexivity|].
  unfold start_body. destruct (decide (appState s = IDLE)); [|reflexivity].
  simpl. destruct (transition _ _) as [c1 t1]. destruct (transition c1 _) as [c2 t2].
  destruct (transition c2 _) as [c3 t3]. destruct (transition c3 _) as [c4 t4].
  reflexivity.
Qed.

Lemma step_keeps_stop_finished (s : State) (ev : Event) (i : nat) (o : Outcome) :
  stopValue s = Some (mkPromiseObj i (Finished o)) ->
  stopValue (step s ev) = Some (mkPromiseObj i (Finished o)).
Proof.
  intros H. unfold step. destruct (exited s); [exact H|].
  destruct ev as [| |l fn ord|code| | |r|r| |code|]; simpl.
  - rewrite start_keeps_stopValue. exact H.
  - rewrite (stop_settled s i _ H). exact H.
  - exact H.
  - unfold shutdown.
    destruct (bool_decide _ && _).
    + destruct (forceShutdown _); exact H.
    + destruct (decide _); [exact H|].
      rewrite (stop_settled _ i (Finished o)) by exact H. exact H.
  - unfold start_job. destruct (startValue s) as [[j [p| |o']]|] eqn:E; try exact H.
    + assert (T : forall p0, stopValue (snd (tick p0 s)) = stopValue s).
      { intros p0. apply tick_frame. }
      destruct p as [[|e]|h| |q fn];
        try (match goal with
             | |- context [tick ?p0 s] =>
                 pose proof (T p0) as T0; destruct (tick p0 s) as [p' s'];
                 simpl in *; rewrite T0; exact H
             end).
      * exact H.
      * rewrite (stop_settled _ i (Finished o)) by exact H. exact H.
    + rewrite H. exact H.
  - unfold stop_job. rewrite H. exact H.
  - exact H.
  - rewrite H. reflexivity.
  - unfold shutdown_job. destruct (waiting s); [exact H|].
    rewrite H. destruct o; exact H.
  - destruct (bool_decide _); exact H.
  - destruct (diagnostic s); exact H.
Qed.

Lemma run_keeps_stop_finished (evs : list Event) :
  forall (s : State) (i : nat) (o : Outcome),
    stopValue s = Some (mkPromiseObj i (Finished o)) ->
    stopValue (run evs s) = Some (mkPromiseObj i (Finished o)).
Proof.
  induction evs as [|ev evs IH]; intros s i o H; [exact H|].
  apply IH, step_keeps_stop_finished, H.
Qed.

(** C10. When the first call of [stop] is made while the run state is
    idle, its "not running" rejection is what the cell of [memo] holds
    from then on: after any later events, a call of [stop] (from a caller,
    from the failure path of [start] or from the shutdown routine, which
    all call this function) changes nothing and returns that rejected
    promise, and no teardown phase has been run. *)
Theorem C10_cached_rejection_disables_stop (s : State) (evs : list Event) :
  reachable s ->
  stopValue s = None ->
  appState s = IDLE ->
  let first := stop s in
  let s' := run evs (fst first) in
  outcome_of (stopValue (fst first)) = Some (Rejected NotRunning)
  /\ stopValue s' = stopValue (fst first)
  /\ stop s' = (s', snd first)
  /\ (Run_phase SHUTTING_DOWN ∉ trace s')
  /\ (Run_phase TERMINATED ∉ trace s').
Proof.
  intros Hr Hs Ha first s'.
  assert (E : stopValue (fst first)
              = Some (mkPromiseObj (snd first) (Finished (Rejected NotRunning)))).
  { subst first. unfold stop, memo. rewrite Hs. unfold stop_body.
    destruct (decide (appState s = IDLE)); [reflexivity|contradiction]. }
  assert (E' : stopValue s' = Some (mkPromiseObj (snd first) (Finished (Rejected NotRunning)))).
  { apply run_keeps_stop_finished, E. }
  assert (HI : Inv s').
  { apply Inv_run, Inv_stop, Inv_reachable, Hr. }
  split; [rewrite E; reflexivity|].
  split; [rewrite E, E'; reflexivity|].
  split; [apply (stop_settled s' _ _ E')|].
  apply (inv_teardown s' HI). right. eexists. exact E'.
Qed.

Lemma C10_cached_rejection_disables_stop_witness :
  let s' := run (Ev_start :: mid_shutdown) (fst (stop init)) in
  stop s' = (s', 0%nat) /\ (Run_phase SHUTTING_DOWN ∉ trace s').
Proof.
  intros s'.
  destruct (C10_cached_rejection_disables_stop init (Ev_start :: mid_shutdown)
              reachable_init eq_refl eq_refl) as [_ [_ [H2 [H3 _]]]].
  split; [exact H2|exact H3].
Defined.

(** ** Run state *)

(** C1, the defect. With a "booting" hook pending, [stop] is called and
    completes; when the hook resolves, the chain of [start] goes on and
    [started] sets the run state to "started" after it was "stopped". *)
Theorem C1_run_state_regresses :
  history stop_during_start init
  = [IDLE; IDLE; IDLE; STARTING; STARTING; STARTING;
     STARTING; STOPPING; STOPPING; STOPPING; STOPPED; STOPPED;
     STOPPED; STOPPED; STOPPED; STOPPED; STARTED]
  /\ exited (run stop_during_start init) = None.
Proof. vm_compute. split; reflexivity. Qed.

(** ** Failure of a hook during [start] *)

(** The claim C6 as stated fails: a hook of "booted" rejects, the
    compensating [stop] is rejected by a teardown hook, and the promise of
    [start] is rejected with the failure of [stop]. *)
Lemma C6_counterexample :
  let s := run failed_boot_failed_teardown init in
  exited s = None
  /\ trace s
     = [Log_info M_starting; Run_phase BOOTING; Run_phase BOOTED; Invoke 1%nat;
        Log_error (HookError 1); Log_info M_stopping; Run_phase SHUTTING_DOWN;
        Invoke 2%nat]
  /\ outcome_of (startValue s) = Some (Rejected (HookError 2)).
Proof. vm_compute. repeat split; reflexivity. Qed.

Lemma Failed_start_emit (o : Obs) (s : State) :
  (forall l, o <> Run_phase l) -> Failed_start s -> Failed_start (emit o s).
Proof.
  intros Ho [HI Hf H1 H2]. split.
  - apply Inv_emit; assumption.
  - exact Hf.
  - simpl. apply not_elem_of_snoc; [apply not_eq_sym, Ho|exact H1].
  - simpl. apply not_elem_of_snoc; [apply not_eq_sym, Ho|exact H2].
Qed.

Lemma Failed_start_fields (s s' : State) :
  Inv s' ->
  startValue s' = startValue s -> stopValue s' = stopValue s -> trace s' = trace s ->
  Failed_start s -> Failed_start s'.
Proof.
  intros HI E1 E2 E3 [_ Hf H1 H2]. split; [exact HI| | |].
  - unfold start_failed in *. rewrite E1, E2. exact Hf.
  - rewrite E3. exact H1.
  - rewrite E3. exact H2.
Qed.

Lemma start_failed_resolve_gate (s : State) :
  start_failed s ->
  start_failed (set_release false
                  (set_startValue (map_chain resolve_gate (startValue s)) s)).
Proof.
  unfold start_failed. simpl.
  destruct (startValue s) as [[i [p| |o]]|]; simpl; try tauto.
  intros [e H]. exists e. rewrite leaf_resolve_gate, H. reflexivity.
Qed.

Lemma Failed_start_stop (s : State) : Failed_start s -> Failed_start (fst (stop s)).
Proof.
  intros HF. pose proof (Inv_stop s (fs_inv s HF)) as HI'.
  destruct HF as [HI Hf H1 H2].
  unfold stop, memo in *. destruct (stopValue s) as [v|] eqn:Es; [split; assumption|].
  assert (Hnf : forall st, startValue st = startValue s -> stopValue s = None ->
                           start_failed s -> forall v, start_failed (set_stopValue v st)).
  { intros st E _ K v. unfold start_failed in *. simpl. rewrite E.
    destruct (startValue s) as [[i [p| |o]]|]; try exact K.
    rewrite Es in K. discriminate. }
  unfold stop_body in *. destruct (decide (appState s = IDLE)) as [Hi|Hi].
  - split; [exact HI'| |exact H1|exact H2]. simpl.
    apply (Hnf (set_nextId (S (nextId s)) s)); [reflexivity|exact Es|exact Hf].
  - set (s0 := if release s
               then set_release false
                      (set_startValue (map_chain resolve_gate (startValue s)) s)
               else s) in *.
    assert (H0 : start_failed s0 /\ trace s0 = trace s /\ stopValue s0 = None).
    { subst s0. destruct (release s); [|repeat split; assumption].
      split; [apply start_failed_resolve_gate, Hf|split; [reflexivity|exact Es]]. }
    destruct H0 as [Hf0 [Et0 Es0]].
    change (current (emit (Log_info M_stopping) s0)) with (current s0) in *.
    destruct (transition (current s0) SHUTTING_DOWN) as [c1 t1].
    destruct (transition c1 TERMINATED) as [c2 t2].
    simpl in *. split; [exact HI'| | |].
    + unfold start_failed in *. simpl.
      destruct (startValue s0) as [[i [p| |o]]|]; try exact Hf0.
      rewrite Es0 in Hf0. discriminate.
    + simpl. rewrite Et0. apply not_elem_of_snoc; [discriminate|exact H1].
    + simpl. rewrite Et0. apply not_elem_of_snoc; [discriminate|exact H2].
Qed.

(** What a job of [start] does once its chain is rejected. *)
Lemma start_job_after_failure (s : State) :
  start_failed s ->
  (exists i e f rest p,
      startValue s = Some (mkPromiseObj i (AwaitChain p))
      /\ leaf p = Settled (Rejected e) /\ fns p = f :: rest
      /\ start_job s
         = set_startValue
             (Some (mkPromiseObj i (AwaitChain (graft (Settled (Rejected e)) rest)))) s)
  \/ (exists i e,
        startValue s = Some (mkPromiseObj i (AwaitChain (Settled (Rejected e))))
        /\ start_job s
           = set_startValue (Some (mkPromiseObj i AwaitStop))
               (fst (stop (emit (Log_error e) s))))
  \/ (exists i o,
        startValue s = Some (mkPromiseObj i AwaitStop)
        /\ outcome_of (stopValue s) = Some o
        /\ start_job s = set_startValue (Some (mkPromiseObj i (Finished o))) s)
  \/ ((forall i p, startValue s <> Some (mkPromiseObj i (AwaitChain p)))
      /\ start_job s = s).
Proof.
  unfold start_failed, start_job.
  destruct (startValue s) as [[i [p| |o]]|] eqn:Es; [| | |tauto].
  - intros [e He]. destruct p as [[|e']|h| |q fn]; simpl in He; try discriminate.
    + right. left. exists i, e'. split; [reflexivity|].
      destruct (stop (emit (Log_error e') s)) as [s2 j]. reflexivity.
    + left. rewrite tick_spine. unfold tick_on_spine.
      change (leaf (Then q fn)) with (leaf q). rewrite He.
      destruct (fns (Then q fn)) as [|f rest] eqn:Ef.
      { simpl in Ef. destruct (fns q); discriminate. }
      exists i, e, f, rest, (Then q fn). repeat split; assumption.
  - intros _.
    destruct (stopValue s) as [[j [p| |o]]|] eqn:Et;
      try (right; right; right; split; [discriminate|reflexivity]).
    right. right. left. exists i, o. repeat split.
  - intros _. right. right. right. split; [discriminate|reflexivity].
Qed.

Lemma invoke_stop_fn_quiet (f : Fn) (l : Lifecycle) (s : State) :
  stop_fn f -> l = READY \/ l = RUNNING ->
  Run_phase l ∉ trace s -> Run_phase l ∉ trace (snd (invoke f s)).
Proof.
  intros Hf Hl Hn.
  destruct f as [[]|[]| |h]; simpl in Hf; try contradiction; simpl; try exact Hn;
    (apply not_elem_of_snoc; [|exact Hn]); destruct Hl as [-> | ->]; discriminate.
Qed.

Lemma stop_tick_quiet (p : Promise) (l : Lifecycle) (s : State) :
  Forall stop_fn (fns p) -> l = READY \/ l = RUNNING ->
  Run_phase l ∉ trace s -> Run_phase l ∉ trace (snd (tick p s)).
Proof.
  intros Hf Hl Hn. rewrite tick_spine. unfold tick_on_spine.
  destruct (leaf p) as [[|e]|h| |]; try exact Hn;
    destruct (fns p) as [|f rest]; try exact Hn.
  apply Forall_cons in Hf as [Hf _].
  pose proof (invoke_stop_fn_quiet f l s Hf Hl Hn) as K.
  destruct (invoke f s). exact K.
Qed.

Lemma stop_job_quiet (l : Lifecycle) (s : State) :
  Inv s -> l = READY \/ l = RUNNING ->
  Run_phase l ∉ trace s -> Run_phase l ∉ trace (stop_job s).
Proof.
  intros HI Hl Hn. unfold stop_job.
  destruct (stopValue s) as [[i [p| |o]]|] eqn:Es; try exact Hn.
  destruct (inv_stop s HI i p Es) as [_ Hf].
  pose proof (stop_tick_quiet p l s Hf Hl Hn) as K.
  destruct p as [[|e]|h| |q fn]; try exact Hn;
    destruct (tick _ s) as [p' s']; exact K.
Qed.

Lemma stop_job_startValue (s : State) : startValue (stop_job s) = startValue s.
Proof.
  unfold stop_job. destruct (stopValue s) as [[i [p| |o]]|]; try reflexivity.
  pose proof (tick_frame p s) as [F _].
  destruct p as [[|e]|h| |q fn]; try reflexivity;
    destruct (tick _ s) as [p' s']; exact F.
Qed.

Lemma stop_job_finished (s : State) (o : Outcome) :
  outcome_of (stopValue s) = Some o -> stop_job s = s.
Proof.
  unfold stop_job. destruct (stopValue s) as [[i [p| |o']]|]; try discriminate. reflexivity.
Qed.

Lemma Failed_start_stop_job (s : State) : Failed_start s -> Failed_start (stop_job s).
Proof.
  intros [HI Hf H1 H2]. split.
  - apply Inv_stop_job, HI.
  - unfold start_failed in *. rewrite stop_job_startValue.
    destruct (startValue s) as [[i [p| |o]]|]; try exact Hf.
    rewrite (stop_job_finished s o Hf). exact Hf.
  - apply stop_job_quiet; [exact HI|by left|exact H1].
  - apply stop_job_quiet; [exact HI|by right|exact H2].
Qed.

Lemma Failed_start_start_job (s : State) : Failed_start s -> Failed_start (start_job s).
Proof.
  intros HF. pose proof (Inv_start_job s (fs_inv s HF)) as HI'.
  destruct (start_job_after_failure s (fs_failed s HF))
    as [[i [e [f [rest [p [Es [El [Ef E]]]]]]]]|[[i [e [Es E]]]|[[i [o [Es [Ho E]]]]|[_ E]]]].
  - rewrite E in *. destruct HF as [HI Hf H1 H2]. split; try assumption.
    unfold start_failed. simpl. exists e. apply leaf_graft.
  - rewrite E in *.
    pose proof (Failed_start_stop _ (Failed_start_emit (Log_error e) s ltac:(discriminate) HF))
      as [_ _ K1 K2].
    split; try assumption. exact I.
  - rewrite E in *. destruct HF as [HI Hf H1 H2]. split; assumption.
  - rewrite E. exact HF.
Qed.

Lemma Failed_start_same (s s' : State) :
  appState s' = appState s -> current s' = current s ->
  startValue s' = startValue s -> stopValue s' = stopValue s ->
  trace s' = trace s ->
  Failed_start s -> Failed_start s'.
Proof.
  intros E1 E2 E3 E4 E5 HF.
  apply (Failed_start_fields s); try assumption.
  apply (Inv_fields s); try assumption. apply (fs_inv s HF).
Qed.

Lemma Failed_start_process_exit (code : Z) (s : State) :
  Failed_start s -> Failed_start (process_exit code s).
Proof.
  intros HF. apply (Failed_start_same (emit (Exit code) s)); try reflexivity.
  apply Failed_start_emit; [discriminate|exact HF].
Qed.

Lemma Failed_start_shutdown (code : Z) (s : State) :
  Failed_start s -> Failed_start (shutdown code s).
Proof.
  intros HF. unfold shutdown.
  set (s2 := set_deadlines (deadlines (emit Newline s) ++ [code]) (emit Newline s)).
  assert (H2 : Failed_start s2).
  { apply (Failed_start_same (emit Newline s)); try reflexivity.
    apply Failed_start_emit; [discriminate|exact HF]. }
  destruct (bool_decide (appState s2 = STOPPING) && (code =? 0)).
  - destruct (forceShutdown s2); [apply Failed_start_process_exit, H2|].
    apply (Failed_start_same (emit (Log_warn M_repeat) s2)); try reflexivity.
    apply Failed_start_emit; [discriminate|exact H2].
  - destruct (decide (appState s2 = STOPPED)); [apply Failed_start_process_exit, H2|].
    pose proof (Failed_start_stop s2 H2) as K. destruct (stop s2) as [s3 j]. simpl in K.
    apply (Failed_start_same s3); try reflexivity. exact K.
Qed.

Lemma Failed_start_shutdown_job (s : State) : Failed_start s -> Failed_start (shutdown_job s).
Proof.
  intros HF. unfold shutdown_job. destruct (waiting s) as [|code rest]; [exact HF|].
  destruct (stopValue s) as [[j [p| |o]]|] eqn:Es; try exact HF.
  apply Failed_start_process_exit.
  assert (H1 : Failed_start (set_waiting rest s)).
  { apply (Failed_start_same s); try reflexivity. exact HF. }
  destruct o as [|e]; [exact H1|]. apply Failed_start_emit; [discriminate|exact H1].
Qed.

Lemma Failed_start_settle_start (r : Settlement) (s : State) :
  Failed_start s ->
  Failed_start (set_startValue (map_chain (settle (settled r)) (startValue s)) s).
Proof.
  intros [HI Hf H1 H2]. split; try assumption.
  - apply Inv_map_start; [apply fns_settle|apply hook_leaf_settle|exact HI].
  - unfold start_failed in *. simpl.
    destruct (startValue s) as [[i [p| |o]]|]; simpl; try exact Hf.
    destruct Hf as [e He]. exists e. rewrite leaf_settle, He. reflexivity.
Qed.

Lemma Failed_start_settle_stop (r : Settlement) (s : State) :
  Failed_start s ->
  Failed_start (set_stopValue (map_chain (settle (settled r)) (stopValue s)) s).
Proof.
  intros [HI Hf H1 H2]. split; try assumption.
  - apply Inv_map_stop; [apply fns_settle|apply hook_leaf_settle|exact HI].
  - unfold start_failed in *. simpl.
    destruct (startValue s) as [[i [p| |o]]|]; simpl; try exact Hf.
    rewrite outcome_of_map_chain. exact Hf.
Qed.

Lemma Failed_start_step (s : State) (ev : Event) :
  Failed_start s -> Failed_start (step s ev).
Proof.
  intros HF. unfold step. destruct (exited s); [exact HF|].
  destruct ev as [| |l fn o|code| | |r|r| |code|].
  - pose proof (fs_failed s HF) as K. unfold start_failed in K.
    destruct (startValue s) as [[i a]|] eqn:Es; [|contradiction].
    rewrite (start_settled s i a Es). exact HF.
  - apply Failed_start_stop, HF.
  - apply (Failed_start_same s); try reflexivity. exact HF.
  - apply Failed_start_shutdown, HF.
  - apply Failed_start_start_job, HF.
  - apply Failed_start_stop_job, HF.
  - apply Failed_start_settle_start, HF.
  - apply Failed_start_settle_stop, HF.
  - apply Failed_start_shutdown_job, HF.
  - destruct (bool_decide _); [|exact HF].
    apply Failed_start_process_exit, Failed_start_emit; [discriminate|exact HF].
  - destruct (diagnostic s); [|exact HF].
    apply (Failed_start_same (emit (Log_warn M_keeps_alive) s)); try reflexivity.
    apply Failed_start_emit; [discriminate|exact HF].
Qed.

Lemma Failed_start_run (evs : list Event) :
  forall s, Failed_start s -> Failed_start (run evs s).
Proof.
  induction evs as [|ev evs IH]; intros s HF; [exact HF|].
  apply IH, Failed_start_step, HF.
Qed.

Lemma rejection_climbs (k : nat) :
  forall (s : State) (i : nat) (p : Promise) (e : Err),
    exited s = None ->
    startValue s = Some (mkPromiseObj i (AwaitChain p)) ->
    leaf p = Settled (Rejected e) ->
    length (fns p) = k ->
    run (replicate k Ev_start_job) s
    = set_startValue (Some (mkPromiseObj i (AwaitChain (Settled (Rejected e))))) s.
Proof.
  induction k as [|k IH]; intros s i p e Hx Hs Hl Hk.
  - assert (p = Settled (Rejected e)) as ->.
    { apply leaf_fns_inj; [exact Hl|]. destruct (fns p); [reflexivity|discriminate]. }
    simpl. rewrite <- Hs. destruct s; reflexivity.
  - change (run (replicate (S k) Ev_start_job) s)
      with (run (replicate k Ev_start_job) (step s Ev_start_job)).
    assert (Hf : start_failed s).
    { unfold start_failed. rewrite Hs. exists e. exact Hl. }
    unfold step at 1. rewrite Hx.
    destruct (start_job_after_failure s Hf)
      as [[i' [e' [f [rest [p' [Es [El [Ef E]]]]]]]]|[[i' [e' [Es E]]]|[[i' [o [Es [Ho E]]]]|E]]].
    + rewrite Hs in Es. inversion Es; subst i' p'. rewrite Hl in El. inversion El; subst e'.
      rewrite E.
      rewrite (IH _ i (graft (Settled (Rejected e)) rest) e); try reflexivity.
      * exact Hx.
      * apply leaf_graft.
      * rewrite fns_graft. simpl. rewrite Ef in Hk. simpl in Hk. lia.
    + rewrite Hs in Es. inversion Es; subst. discriminate.
    + rewrite Hs in Es. discriminate.
    + exfalso. exact (proj1 E i p Hs).
Qed.

Lemma booted_phase_not_run (s : State) (h : HookFn) :
  Inv s -> in_booted_phase s h ->
  (Run_phase READY ∉ trace s) /\ (Run_phase RUNNING ∉ trace s).
Proof.
  intros HI [i [p [rest [Hs [Hl Hf]]]]].
  destruct (inv_start s HI i p Hs) as [_ [hs [n [Hf' Ht]]]].
  assert (Hin : forall l, l = READY \/ l = RUNNING -> Fn_phase l ∈ drop n startFns).
  { intros l Hl'.
    assert (K : Fn_phase l ∈ fns p).
    { rewrite Hf. apply elem_of_app. right.
      destruct Hl' as [-> | ->]; [apply elem_of_cons; by left|].
      apply elem_of_cons. right. apply elem_of_cons. by left. }
    rewrite Hf' in K. apply elem_of_app in K as [K|K]; [|exact K].
    apply list_elem_of_fmap in K as [x [K _]]. discriminate. }
  split; apply Ht, Hin; [by left|by right].
Qed.

Lemma start_job_rejected_top (s : State) (i j : nat) (e : Err) (o : Outcome) :
  exited s = None ->
  startValue s = Some (mkPromiseObj i (AwaitChain (Settled (Rejected e)))) ->
  stopValue s = Some (mkPromiseObj j (Finished o)) ->
  step s Ev_start_job
  = set_startValue (Some (mkPromiseObj i AwaitStop)) (emit (Log_error e) s).
Proof.
  intros Hx Hs Ht. unfold step. rewrite Hx. unfold start_job. rewrite Hs.
  rewrite (stop_settled (emit (Log_error e) s) j (Finished o) Ht). reflexivity.
Qed.

Lemma start_job_await_stop (s : State) (i j : nat) (o : Outcome) :
  exited s = None ->
  startValue s = Some (mkPromiseObj i AwaitStop) ->
  stopValue s = Some (mkPromiseObj j (Finished o)) ->
  step s Ev_start_job = set_startValue (Some (mkPromiseObj i (Finished o))) s.
Proof.
  intros Hx Hs Ht. unfold step. rewrite Hx. unfold start_job. rewrite Hs, Ht.
  reflexivity.
Qed.

Lemma start_job_finished (s : State) (i : nat) (o : Outcome) :
  startValue s = Some (mkPromiseObj i (Finished o)) ->
  step s Ev_start_job = s.
Proof.
  intros Hs. unfold step. destruct (exited s); [reflexivity|].
  unfold start_job. rewrite Hs. reflexivity.
Qed.

(** Once [stop] has settled, a failed [start] settles with the same
    outcome after the jobs it still needs: those that carry the rejection
    to the top of its chain, the one that enters the [catch] block, and
    the one that resumes after [await stop()]. *)
Lemma start_settles_with_stop (s : State) (o : Outcome) :
  start_failed s ->
  exited s = None ->
  outcome_of (stopValue s) = Some o ->
  outcome_of (startValue (run (replicate (start_depth s + 2) Ev_start_job) s))
  = Some o.
Proof.
  intros Hf Hx Ho.
  destruct (stopValue s) as [[j [q| |o']]|] eqn:Et; simpl in Ho; try discriminate.
  inversion Ho; subst o'. clear Ho.
  unfold start_failed in Hf. unfold start_depth.
  destruct (startValue s) as [[i [p| |o']]|] eqn:Es; [| | |contradiction].
  - destruct Hf as [e Hl].
    rewrite replicate_add. unfold run. rewrite fold_left_app.
    fold (run (replicate (length (fns p)) Ev_start_job) s).
    rewrite (rejection_climbs _ s i p e Hx Es Hl eq_refl).
    set (sr := set_startValue
                 (Some (mkPromiseObj i (AwaitChain (Settled (Rejected e))))) s).
    change (fold_left step (replicate 2 Ev_start_job) sr)
      with (step (step sr Ev_start_job) Ev_start_job).
    rewrite (start_job_rejected_top sr i j e o Hx eq_refl Et).
    rewrite (start_job_await_stop
               (set_startValue (Some (mkPromiseObj i AwaitStop))
                  (emit (Log_error e) sr)) i j o Hx eq_refl Et).
    reflexivity.
  - change (run (replicate (0 + 2) Ev_start_job) s)
      with (step (step s Ev_start_job) Ev_start_job).
    rewrite (start_job_await_stop s i j o Hx Es Et).
    rewrite (start_job_finished
               (set_startValue (Some (mkPromiseObj i (Finished o))) s) i o eq_refl).
    reflexivity.
  - rewrite Et in Hf. simpl in Hf. inversion Hf; subst o'.
    change (run (replicate (0 + 2) Ev_start_job) s)
      with (step (step s Ev_start_job) Ev_start_job).
    rewrite !(start_job_finished s i o Es). rewrite Es. reflexivity.
Qed.

(** C6, as the code has it. When a hook of "booted" rejects during
    [start]: the rejection climbs the chain without calling anything (the
    chain ends rejected with the hook's failure after as many jobs as it
    held functions); the next job of [start] logs the failure, calls
    [stop] and suspends [start] on the promise of [stop]; whatever
    happens next, the phases "ready" and "running" are never run, and
    [start] settles with the outcome of [stop]: a settled [start] has the
    outcome of [stop], and once [stop] has settled (the process not
    having exited) the remaining jobs of [start] settle it with that
    outcome, resolved when [stop] resolves and rejected with the failure
    of [stop] when [stop] is rejected. *)
Theorem C6_failed_boot_is_compensated (s : State) (h : HookFn) (n : nat)
    (evs : list Event) :
  reachable s ->
  exited s = None ->
  in_booted_phase s h ->
  let s1 := step s (Ev_settle_start (Rejects n)) in
  let rejected :=
    set_startValue
      (with_act (AwaitChain (Settled (Rejected (HookError n)))) (startValue s1)) s1 in
  (run (replicate (start_depth s1) Ev_start_job) s1 = rejected
   /\ step rejected Ev_start_job
     = set_startValue (with_act AwaitStop (startValue s1))
         (fst (stop (emit (Log_error (HookError n)) rejected))))
  /\ let s' := run evs s1 in
     (Run_phase READY ∉ trace s')
     /\ (Run_phase RUNNING ∉ trace s')
     /\ (forall o, outcome_of (startValue s') = Some o ->
                   outcome_of (stopValue s') = Some o)
     /\ (forall o, outcome_of (stopValue s') = Some o ->
                   exited s' = None ->
                   outcome_of
                     (startValue
                        (run (replicate (start_depth s' + 2) Ev_start_job) s'))
                   = Some o).
Proof.
  intros Hr Hx Hb s1 rejected.
  pose proof (Inv_reachable s Hr) as HI.
  destruct (booted_phase_not_run s h HI Hb) as [N1 N2].
  destruct Hb as [i [p [rest [Hs [Hl Hf]]]]].
  assert (E1 : s1 = set_startValue
                      (Some (mkPromiseObj i
                               (AwaitChain (settle (Rejected (HookError n)) p)))) s).
  { subst s1. unfold step. rewrite Hx, Hs. reflexivity. }
  assert (Hl1 : leaf (settle (Rejected (HookError n)) p) = Settled (Rejected (HookError n))).
  { rewrite leaf_settle, Hl. reflexivity. }
  assert (HF : Failed_start s1).
  { split.
    - apply Inv_step, HI.
    - rewrite E1. unfold start_failed. simpl. eexists. exact Hl1.
    - rewrite E1. exact N1.
    - rewrite E1. exact N2. }
  split; [split|].
  - subst rejected. rewrite E1. simpl.
    unfold start_depth. simpl.
    apply (rejection_climbs _ _ i (settle (Rejected (HookError n)) p));
      [exact Hx|reflexivity|exact Hl1|reflexivity].
  - subst rejected. rewrite E1. simpl. unfold step. simpl. rewrite Hx.
    unfold start_job. simpl.
    destruct (stop _) as [s2 j]. reflexivity.
  - intros s'. pose proof (Failed_start_run evs s1 HF) as [_ Hf' K1 K2].
    fold s' in Hf', K1, K2. split; [exact K1|]. split; [exact K2|]. split.
    + intros o Ho. unfold start_failed in Hf'.
      destruct (startValue s') as [[j [q| |o']]|]; simpl in Ho; try discriminate.
      inversion Ho; subst. exact Hf'.
    + intros o Ho Hx'. apply start_settles_with_stop; assumption.
Qed.

Lemma C6_failed_boot_is_compensated_witness :
  let s := run booted_hook_pending init in
  let s' := run (skipn 8 failed_boot_failed_teardown)
              (step s (Ev_settle_start (Rejects 1))) in
  (Run_phase READY ∉ trace s') /\ (Run_phase RUNNING ∉ trace s')
  /\ outcome_of (startValue (run (replicate (start_depth s' + 2) Ev_start_job) s'))
     = Some (Rejected (HookError 2)).
Proof.
  intros s s'.
  assert (Hb : in_booted_phase s 1%nat).
  { exists 0%nat, (graft (Pending 1%nat) [Fn_phase READY; Fn_phase RUNNING; Fn_started]),
      (@nil HookFn).
    repeat split; vm_compute; reflexivity. }
  assert (Hx : exited s = None) by (vm_compute; reflexivity).
  assert (Ho : outcome_of (stopValue s') = Some (Rejected (HookError 2)))
    by (vm_compute; reflexivity).
  assert (Hx' : exited s' = None) by (vm_compute; reflexivity).
  destruct (C6_failed_boot_is_compensated s 1%nat 1%nat
              (skipn 8 failed_boot_failed_teardown)
              (reachable_run booted_hook_pending init reachable_init) Hx Hb)
    as [_ [H1 [H2 [_ H3]]]].
  split; [exact H1|]. split; [exact H2|].
  exact (H3 _ Ho Hx').
Defined.

(** ** Each phase of [start] is run at most once *)





















(** ** A start in which every hook resolves *)




Section Smooth.
Variable H : gmap Lifecycle (list HookFn).













End Smooth.


(** ** Every phase has run once the controller has started *)














(** *** How the chain of [start] changes *)









(** *** The invariant of progress *)















(** * Further properties of the code *)

(** ** The ladder on any sequence of attempts *)

Lemma last_any_default {A : Type} (l : list A) (a d d' : A) :
  List.last (a :: l) d = List.last (a :: l) d'.
Proof.
  revert a. induction l as [|b l IH]; intros a; [reflexivity|].
  change (List.last (b :: l) d = List.last (b :: l) d'). apply IH.
Qed.

Lemma walk_forward (targets : list Lifecycle) :
  forall c : option Lifecycle,
    StronglySorted (fun a b => order a < order b) (snd (walk c targets))
    /\ Forall (fun a => order_of_current c < order a) (snd (walk c targets))
    /\ order_of_current c <= order_of_current (fst (walk c targets))
    /\ fst (walk c targets) = List.last (map Some (snd (walk c targets))) c.
Proof.
  induction targets as [|l rest IH]; intros c.
  - simpl. repeat split; [constructor|constructor|lia].
  - simpl. unfold makeTransition, canTransition.
    rewrite !indexOf_appLifecycle. simpl.
    destruct (Z.ltb_spec (order_of_current c) (order l)) as [H|H].
    + destruct (IH (Some l)) as [S1 [F1 [L1 E1]]].
      destruct (walk (Some l) rest) as [c2 ts]. simpl in *.
      repeat split.
      * constructor; [exact S1|exact F1].
      * constructor; [exact H|].
        eapply Forall_impl; [exact F1|]. simpl. intros a Ha. lia.
      * lia.
      * rewrite E1. destruct ts as [|a ts]; [reflexivity|].
        apply (last_any_default (map Some ts) (Some a)).
    + destruct (IH c) as [S1 [F1 [L1 E1]]].
      destruct (walk c rest) as [c2 ts]. simpl in *.
      repeat split; assumption.
Qed.

(** X1. Whatever phases are attempted and in whatever order, the phases
    actually entered are strictly increasing in the fixed order, all lie
    after the pointer the walk started from, and the pointer ends on the
    last phase entered (or where it was when none was): no phase is
    entered twice and none is entered after a later one. *)
Theorem ladder_walk_strictly_forward (c : option Lifecycle) (targets : list Lifecycle) :
  StronglySorted (fun a b => order a < order b) (snd (walk c targets))
  /\ Forall (fun a => order_of_current c < order a) (snd (walk c targets))
  /\ NoDup (snd (walk c targets))
  /\ fst (walk c targets) = List.last (map Some (snd (walk c targets))) c.
Proof.
  destruct (walk_forward targets c) as [S1 [F1 [_ E1]]].
  repeat split; try assumption.
  clear F1 E1. induction S1 as [|a l S1 IH F]; constructor; try assumption.
  intros Hin. rewrite Forall_forall in F. specialize (F a Hin). lia.
Qed.

Lemma indexOf_from_bounds (xs : list Lifecycle) (x : Lifecycle) :
  forall i, indexOf_from xs x i = -1 \/ (i <= indexOf_from xs x i /\ x ∈ xs).
Proof.
  induction xs as [|y ys IH]; intros i; simpl; [by left|].
  destruct (decide (y = x)) as [->|Hne].
  - right. split; [lia|]. apply elem_of_cons. by left.
  - destruct (IH (i + 1)) as [H|[H1 H2]]; [by left|].
    right. split; [lia|]. apply elem_of_cons. by right.
Qed.

(** X2. For any map of states handed to [makeAppLifecycleManager], a
    phase that does not occur in the map is never entered: the check can
    only pass for a phase of the map. *)
Theorem canTransition_only_into_stateMap (stateMap : list Lifecycle)
    (current : option Lifecycle) (lifecycle : Lifecycle) :
  canTransition stateMap current lifecycle = true ->
  lifecycle ∈ stateMap.
Proof.
  unfold canTransition. rewrite indexOf_appLifecycle. simpl. intros H.
  apply Z.ltb_lt in H.
  destruct (indexOf_from_bounds stateMap lifecycle 0) as [E|[_ Hin]]; [|exact Hin].
  rewrite E in H. destruct current as [[]|]; simpl in H; lia.
Qed.

Lemma canTransition_only_into_stateMap_witness : READY ∈ [BOOTED; READY].
Proof.
  apply (canTransition_only_into_stateMap [BOOTED; READY] (Some BOOTING) READY).
  reflexivity.
Defined.

(** ** The registry keeps every registration *)

Lemma occurrences_app (h : HookFn) (l1 l2 : list HookFn) :
  occurrences h (l1 ++ l2) = (occurrences h l1 + occurrences h l2)%nat.
Proof. unfold occurrences. rewrite filter_app, length_app. reflexivity. Qed.

Lemma occurrences_contributions (h : HookFn) (l : Lifecycle) (c : Call) :
  (occurrences h (contribution Prepend l c) + occurrences h (contribution Append l c))%nat
  = if bool_decide (call_phase c = l) then occurrences h (call_fns c) else 0%nat.
Proof.
  destruct c as [o p fs]. simpl.
  destruct (decide (p = l)) as [->|Hne].
  - rewrite bool_decide_eq_true_2 by reflexivity.
    destruct o.
    + rewrite contribution_same, (contribution_other_order Append Prepend) by discriminate.
      reflexivity.
    + rewrite contribution_same, (contribution_other_order Prepend Append) by discriminate.
      unfold occurrences at 2. simpl. lia.
  - rewrite bool_decide_eq_false_2 by exact Hne.
    rewrite !contribution_other_phase by exact Hne. reflexivity.
Qed.

(** X3. Registration never drops and never de-duplicates: after any
    calls of [append] and [prepend] on any registry, a hook occurs in a
    phase as many times as it occurred there before plus as many times as
    it was passed to the calls on that phase; calls on other phases count
    for nothing. *)
Theorem registry_keeps_multiplicity (calls : list Call) :
  forall (hooks : gmap Lifecycle (list HookFn)) (h : HookFn) (lifecycle : Lifecycle),
    occurrences h (HookStore.get (apply_calls calls hooks) lifecycle)
    = (occurrences h (HookStore.get hooks lifecycle) + registered h lifecycle calls)%nat.
Proof.
  induction calls as [|c calls IH]; intros hooks h l.
  - unfold registered. simpl. lia.
  - unfold apply_calls. simpl. fold (apply_calls calls (apply_call hooks c)).
    rewrite IH, get_apply_call, !occurrences_app.
    unfold registered. simpl. fold (registered h l calls).
    rewrite <- occurrences_contributions. lia.
Qed.

(** ** Single flight of [stop] *)

Lemma stop_keeps_stop_pid (s : State) (i : nat) :
  pid <$> stopValue s = Some i -> pid <$> stopValue (fst (stop s)) = Some i.
Proof.
  intros H. unfold stop, memo. destruct (stopValue s) as [v|] eqn:E; [|discriminate].
  simpl. rewrite E. exact H.
Qed.

Lemma map_chain_pid (f : Promise -> Promise) (v : option PromiseObj) :
  pid <$> map_chain f v = pid <$> v.
Proof. destruct v as [[j [q| |o]]|]; reflexivity. Qed.

Lemma step_keeps_stop_pid (s : State) (ev : Event) (i : nat) :
  pid <$> stopValue s = Some i -> pid <$> stopValue (step s ev) = Some i.
Proof.
  intros H. unfold step. destruct (exited s); [exact H|].
  destruct ev as [| |l fn ord|code| | |r|r| |code|]; simpl.
  - rewrite start_keeps_stopValue. exact H.
  - apply stop_keeps_stop_pid, H.
  - exact H.
  - unfold shutdown.
    destruct (bool_decide _ && _).
    + destruct (forceShutdown _); exact H.
    + destruct (decide _); [exact H|].
      match goal with |- context [stop ?x] =>
        pose proof (stop_keeps_stop_pid x i H) as K; destruct (stop x) as [s3 j] end.
      exact K.
  - unfold start_job. destruct (startValue s) as [[j [p| |o']]|] eqn:E; try exact H.
    + assert (T : forall p0, stopValue (snd (tick p0 s)) = stopValue s).
      { intros p0. apply tick_frame. }
      destruct p as [[|e]|h| |q fn];
        try (match goal with
             | |- context [tick ?p0 s] =>
                 pose proof (T p0) as T0; destruct (tick p0 s) as [p' s'];
                 simpl in *; rewrite T0; exact H
             end).
      * exact H.
      * match goal with |- context [stop ?x] =>
          pose proof (stop_keeps_stop_pid x i H) as K; destruct (stop x) as [s3 j3] end.
        exact K.
    + destruct (stopValue s) as [[j2 [p| |o]]|] eqn:E2; simpl; rewrite ?E2; exact H.
  - unfold stop_job. destruct (stopValue s) as [[j [p| |o]]|] eqn:E;
      try (rewrite E; exact H).
    assert (T : forall p0, stopValue (snd (tick p0 s)) = stopValue s).
    { intros p0. apply tick_frame. }
    destruct p as [[|e]|h| |q fn]; try exact H;
      destruct (tick _ s) as [p' s']; exact H.
  - exact H.
  - rewrite map_chain_pid. exact H.
  - unfold shutdown_job. destruct (waiting s); [exact H|].
    destruct (stopValue s) as [[j [p| |[|e]]]|] eqn:E; simpl; rewrite ?E; exact H.
  - destruct (bool_decide _); exact H.
  - destruct (diagnostic s); exact H.
Qed.

Lemma run_keeps_stop_pid (evs : list Event) :
  forall (s : State) (i : nat),
    pid <$> stopValue s = Some i -> pid <$> stopValue (run evs s) = Some i.
Proof.
  induction evs as [|ev evs IH]; intros s i H; [exact H|].
  apply IH, step_keeps_stop_pid, H.
Qed.

Lemma stop_sets_value (s : State) :
  pid <$> stopValue (fst (stop s)) = Some (snd (stop s)).
Proof.
  unfold stop, memo. destruct (stopValue s) as [v|] eqn:E.
  - simpl. rewrite E. reflexivity.
  - destruct (stop_body s) as [s' a]. reflexivity.
Qed.

(** X4. [stop] is single-flight like [start]: whatever happens after a
    first call of [stop], in whatever state it was made, a later call
    changes nothing in the controller (no teardown is started again, the
    release function is not called again) and returns the promise of the
    first call. *)
Theorem stop_single_flight (s : State) (evs : list Event) :
  let first := stop s in
  let s2 := run evs (fst first) in
  stop s2 = (s2, snd first) /\ step s2 Ev_stop = s2.
Proof.
  intros first s2.
  pose proof (run_keeps_stop_pid evs _ _ (stop_sets_value s)) as H.
  fold first s2 in H.
  assert (E : stop s2 = (s2, snd first)).
  { unfold stop, memo. destruct (stopValue s2) as [v|]; [|discriminate].
    simpl in H. congruence. }
  split; [exact E|].
  unfold step. destruct (exited s2); [reflexivity|]. rewrite E. reflexivity.
Qed.

(** ** The process exits only through the shutdown routine *)

Lemma stop_keeps_shutdown_state (s : State) :
  deadlines (fst (stop s)) = deadlines s
  /\ waiting (fst (stop s)) = waiting s
  /\ exited (fst (stop s)) = exited s
  /\ forceShutdown (fst (stop s)) = forceShutdown s
  /\ hooks (fst (stop s)) = hooks s.
Proof.
  unfold stop, memo. destruct (stopValue s); [repeat split|].
  unfold stop_body. destruct (decide (appState s = IDLE)); [repeat split|].
  destruct (release s); simpl;
    destruct (transition _ _) as [c1 t1]; destruct (transition c1 _) as [c2 t2];
    repeat split.
Qed.

Lemma start_keeps_shutdown_state (s : State) :
  deadlines (fst (start s)) = deadlines s
  /\ waiting (fst (start s)) = waiting s
  /\ exited (fst (start s)) = exited s
  /\ forceShutdown (fst (start s)) = forceShutdown s
  /\ hooks (fst (start s)) = hooks s.
Proof.
  unfold start, memo. destruct (startValue s); [repeat split|].
  unfold start_body. destruct (decide (appState s = IDLE)); [|repeat split].
  simpl. destruct (transition _ _) as [c1 t1]. destruct (transition c1 _) as [c2 t2].
  destruct (transition c2 _) as [c3 t3]. destruct (transition c3 _) as [c4 t4].
  repeat split.
Qed.

Lemma start_job_keeps_shutdown_state (s : State) :
  deadlines (start_job s) = deadlines s
  /\ waiting (start_job s) = waiting s
  /\ exited (start_job s) = exited s.
Proof.
  unfold start_job. destruct (startValue s) as [[i [p| |o]]|]; try (repeat split; fail).
  - pose proof (tick_frame p s) as [_ [_ [_ [_ [_ [_ [F1 [F2 [_ F3]]]]]]]]].
    destruct p as [[|e]|h| |q fn];
      try (destruct (tick _ s) as [p' s']; simpl in *; repeat split; assumption).
    pose proof (stop_keeps_shutdown_state (emit (Log_error e) s)) as [K1 [K2 [K3 _]]].
    destruct (stop (emit (Log_error e) s)) as [s2 j]. simpl in *.
    repeat split; assumption.
  - destruct (stopValue s) as [[j [p| |o]]|]; repeat split.
Qed.

Lemma stop_job_keeps_shutdown_state (s : State) :
  deadlines (stop_job s) = deadlines s
  /\ waiting (stop_job s) = waiting s
  /\ exited (stop_job s) = exited s.
Proof.
  unfold stop_job. destruct (stopValue s) as [[i [p| |o]]|]; try (repeat split; fail).
  pose proof (tick_frame p s) as [_ [_ [_ [_ [_ [_ [F1 [F2 [_ F3]]]]]]]]].
  destruct p as [[|e]|h| |q fn];
    try (destruct (tick _ s) as [p' s']; simpl in *; repeat split; assumption);
    repeat split.
Qed.

(** The codes the process can still exit with: those of the armed
    deadlines, of the suspended calls of the routine, and the one it has
    exited with. *)
Lemma step_exit_codes (P : Z -> Prop) (s : State) (ev : Event) :
  (forall c, ev = Ev_signal c -> P c) ->
  (forall c, c ∈ deadlines s -> P c) ->
  (forall c, c ∈ waiting s -> P c) ->
  (forall c, exited s = Some c -> P c) ->
  (forall c, c ∈ deadlines (step s ev) -> P c)
  /\ (forall c, c ∈ waiting (step s ev) -> P c)
  /\ (forall c, exited (step s ev) = Some c -> P c).
Proof.
  intros Hev Hd Hw Hx. unfold step. destruct (exited s) as [x|] eqn:Ex.
  { repeat split; try assumption. rewrite Ex. exact Hx. }
  destruct ev as [| |l fn ord|code| | |r|r| |code|].
  - destruct (start_keeps_shutdown_state s) as [K1 [K2 [K3 _]]].
    rewrite K1, K2, K3, Ex. repeat split; assumption.
  - destruct (stop_keeps_shutdown_state s) as [K1 [K2 [K3 _]]].
    rewrite K1, K2, K3, Ex. repeat split; assumption.
  - simpl. rewrite Ex. repeat split; assumption.
  - assert (Pc : P code) by (apply Hev; reflexivity).
    assert (Hd' : forall c, c ∈ deadlines s ++ [code] -> P c).
    { intros c H. apply elem_of_app in H as [H|H]; [apply Hd, H|].
      apply list_elem_of_singleton in H. subst. exact Pc. }
    unfold shutdown. simpl.
    destruct (bool_decide _ && _).
    + destruct (forceShutdown s); simpl; repeat split; try assumption.
      * intros c H. inversion H; subst. exact Pc.
      * rewrite Ex. discriminate.
    + destruct (decide _); simpl.
      * repeat split; try assumption. intros c H. inversion H; subst. exact Pc.
      * match goal with |- context [stop ?x] =>
          destruct (stop_keeps_shutdown_state x) as [K1 [K2 [K3 _]]];
          destruct (stop x) as [s3 j] end.
        simpl in *. rewrite K1, K3, K2, Ex. repeat split; try assumption; try discriminate.
        intros c H. apply elem_of_app in H as [H|H]; [apply Hw, H|].
        apply list_elem_of_singleton in H. subst. exact Pc.
  - destruct (start_job_keeps_shutdown_state s) as [K1 [K2 K3]].
    rewrite K1, K2, K3, Ex. repeat split; assumption.
  - destruct (stop_job_keeps_shutdown_state s) as [K1 [K2 K3]].
    rewrite K1, K2, K3, Ex. repeat split; assumption.
  - simpl. rewrite Ex. repeat split; assumption.
  - simpl. rewrite Ex. repeat split; assumption.
  - unfold shutdown_job. destruct (waiting s) as [|code rest] eqn:Ew.
    { rewrite ?Ew, ?Ex. repeat split; assumption. }
    assert (Pc : P code) by (apply Hw; apply elem_of_cons; by left).
    destruct (stopValue s) as [[j [p| |o]]|];
      try (rewrite Ew, Ex; repeat split; assumption).
    destruct o as [|e]; simpl; repeat split; try assumption;
      try (intros c H; apply Hw; apply elem_of_cons; by right);
      intros c H; inversion H; subst; exact Pc.
  - destruct (bool_decide (code ∈ deadlines s)) eqn:Eb.
    + apply bool_decide_eq_true in Eb. simpl. repeat split; try assumption.
      intros c H. inversion H; subst. apply Hd, Eb.
    + rewrite Ex. repeat split; assumption.
  - destruct (diagnostic s); simpl; rewrite Ex; repeat split; assumption.
Qed.

Lemma run_exit_codes (P : Z -> Prop) (evs : list Event) :
  forall s,
    (forall c, Ev_signal c ∈ evs -> P c) ->
    (forall c, c ∈ deadlines s -> P c) ->
    (forall c, c ∈ waiting s -> P c) ->
    (forall c, exited s = Some c -> P c) ->
    forall c, exited (run evs s) = Some c -> P c.
Proof.
  induction evs as [|ev evs IH]; intros s Hev Hd Hw Hx; [exact Hx|].
  destruct (step_exit_codes P s ev) as [K1 [K2 K3]]; try assumption.
  { intros c ->. apply Hev. apply elem_of_cons. by left. }
  apply (IH (step s ev)); try assumption.
  intros c H. apply Hev. apply elem_of_cons. by right.
Qed.

(** X5. The process exits only through the shutdown routine, with the
    code of one of its invocations: in an execution that ends in
    [process.exit(c)], the routine [shutdown(c)] was run. Neither
    [start], [stop], a hook failure nor a timer of [stop] exits the
    process. *)
Theorem exit_only_by_shutdown (evs : list Event) (c : Z) :
  exited (run evs init) = Some c ->
  Ev_signal c ∈ evs.
Proof.
  apply (run_exit_codes (fun c => Ev_signal c ∈ evs) evs init).
  - intros c' H. exact H.
  - intros c' H. inversion H.
  - intros c' H. inversion H.
  - intros c' H. discriminate.
Qed.

Lemma exit_only_by_shutdown_witness :
  Ev_signal 1 ∈ (mid_shutdown ++ [Ev_signal 1; Ev_deadline 1]).
Proof.
  apply (exit_only_by_shutdown (mid_shutdown ++ [Ev_signal 1; Ev_deadline 1]) 1).
  vm_compute. reflexivity.
Defined.

(** ** The hard deadline *)

Lemma step_after_exit (s : State) (ev : Event) (x : Z) :
  exited s = Some x -> step s ev = s.
Proof. intros H. unfold step. rewrite H. reflexivity. Qed.

Lemma run_after_exit (evs : list Event) (s : State) (x : Z) :
  exited s = Some x -> run evs s = s.
Proof.
  induction evs as [|ev evs IH]; intros H; [reflexivity|].
  simpl. rewrite (step_after_exit s ev x H). exact (IH H).
Qed.

Lemma step_keeps_deadline (s : State) (ev : Event) (c : Z) :
  c ∈ deadlines s -> c ∈ deadlines (step s ev).
Proof.
  intros H. unfold step. destruct (exited s); [exact H|].
  destruct ev as [| |l fn ord|code| | |r|r| |code|]; try exact H.
  - destruct (start_keeps_shutdown_state s) as [K _]. rewrite K. exact H.
  - destruct (stop_keeps_shutdown_state s) as [K _]. rewrite K. exact H.
  - assert (H' : c ∈ deadlines s ++ [code]) by (apply elem_of_app; by left).
    unfold shutdown. simpl.
    destruct (bool_decide _ && _).
    + destruct (forceShutdown s); exact H'.
    + destruct (decide _); [exact H'|].
      match goal with |- context [stop ?x] =>
        destruct (stop_keeps_shutdown_state x) as [K _]; destruct (stop x) as [s3 j] end.
      simpl in *. rewrite K. exact H'.
  - destruct (start_job_keeps_shutdown_state s) as [K _]. rewrite K. exact H.
  - destruct (stop_job_keeps_shutdown_state s) as [K _]. rewrite K. exact H.
  - unfold shutdown_job. destruct (waiting s); [exact H|].
    destruct (stopValue s) as [[j [p| |[|e]]]|]; exact H.
  - destruct (bool_decide _); exact H.
  - destruct (diagnostic s); exact H.
Qed.

Lemma run_keeps_deadline (evs : list Event) (c : Z) :
  forall s, c ∈ deadlines s -> c ∈ deadlines (run evs s).
Proof.
  induction evs as [|ev evs IH]; intros s H; [exact H|].
  apply IH, step_keeps_deadline, H.
Qed.

Lemma shutdown_arms_deadline (s : State) (c : Z) :
  exited s = None -> c ∈ deadlines (step s (Ev_signal c)).
Proof.
  intros Hx. unfold step. rewrite Hx.
  assert (H' : c ∈ deadlines s ++ [c]).
  { apply elem_of_app. right. apply list_elem_of_singleton. reflexivity. }
  unfold shutdown. simpl.
  destruct (bool_decide _ && _).
  - destruct (forceShutdown s); exact H'.
  - destruct (decide _); [exact H'|].
    match goal with |- context [stop ?x] =>
      destruct (stop_keeps_shutdown_state x) as [K _]; destruct (stop x) as [s3 j] end.
    simpl in *. rewrite K. exact H'.
Qed.

(** X6. Every run of the shutdown routine arms a forced exit that
    nothing disarms: as long as the process has not exited, whatever
    happened since [shutdown(c)] was run (hooks that never settle, a
    rejected or disabled [stop], further signals), the firing of its
    deadline logs the last warning and exits with code [c]. *)
Theorem deadline_stays_armed (s : State) (c : Z) (evs : list Event) :
  exited (run evs (step s (Ev_signal c))) = None ->
  let s' := run evs (step s (Ev_signal c)) in
  c ∈ deadlines s'
  /\ exited (step s' (Ev_deadline c)) = Some c
  /\ trace (step s' (Ev_deadline c))
     = trace s' ++ [Log_error_msg M_ragequit; Exit c].
Proof.
  intros Hx s'.
  assert (Hs : exited s = None).
  { destruct (exited s) as [x|] eqn:E; [|reflexivity].
    rewrite (step_after_exit s _ x E), (run_after_exit evs s x E), E in Hx.
    discriminate. }
  assert (Hin : c ∈ deadlines s').
  { apply run_keeps_deadline, shutdown_arms_deadline, Hs. }
  split; [exact Hin|].
  unfold step. fold s' in Hx. rewrite Hx.
  rewrite bool_decide_eq_true_2 by exact Hin.
  simpl. rewrite <- app_assoc. split; reflexivity.
Qed.

Lemma deadline_stays_armed_witness :
  let s' := run [] (step (run mid_shutdown init) (Ev_signal 1)) in
  exited s' = None /\ exited (step s' (Ev_deadline 1)) = Some 1.
Proof.
  intros s'.
  assert (Hx : exited s' = None) by (vm_compute; reflexivity).
  split; [exact Hx|].
  exact (proj1 (proj2 (deadline_stays_armed (run mid_shutdown init) 1 [] Hx))).
Defined.

(** ** A signal before [start] *)

(** X7. When the shutdown routine runs while the run state is idle and no
    earlier run of the routine is suspended, it calls [stop], which is
    rejected with "not running"; the routine logs that failure and exits
    with its code, and the run state is still idle. *)
Theorem signal_while_idle (s : State) (c : Z) :
  reachable s ->
  exited s = None ->
  appState s = IDLE ->
  waiting s = [] ->
  let s' := run [Ev_signal c; Ev_shutdown_job] s in
  exited s' = Some c
  /\ trace s' = trace s ++ [Newline; Log_error NotRunning; Exit c]
  /\ appState s' = IDLE
  /\ outcome_of (stopValue s') = Some (Rejected NotRunning).
Proof.
  intros Hr Hx Ha Hw s'. subst s'.
  set (x := set_deadlines (deadlines s ++ [c]) (emit Newline s)).
  assert (E1 : step s (Ev_signal c)
               = set_waiting (waiting (fst (stop x)) ++ [c]) (fst (stop x))).
  { unfold step. rewrite Hx. unfold shutdown. simpl. rewrite Ha. simpl.
    destruct (decide (IDLE = STOPPED)) as [K|_]; [discriminate|].
    fold x. destruct (stop x) as [y j]. reflexivity. }
  assert (Hy : exists i,
             stopValue (fst (stop x)) = Some (mkPromiseObj i (Finished (Rejected NotRunning)))
             /\ trace (fst (stop x)) = trace s ++ [Newline]
             /\ exited (fst (stop x)) = None
             /\ waiting (fst (stop x)) = []
             /\ appState (fst (stop x)) = IDLE).
  { destruct (inv_idle s (Inv_reachable s Hr) Ha) as [H|[i H]].
    - unfold stop, memo. change (stopValue x) with (stopValue s). rewrite H.
      unfold stop_body. change (appState x) with (appState s).
      destruct (decide (appState s = IDLE)); [|contradiction].
      simpl. eexists. repeat split; assumption.
    - rewrite (stop_settled x i (Finished (Rejected NotRunning))) by exact H.
      exists i. simpl. repeat split; assumption. }
  destruct Hy as [i [Hs [Ht [Hx' [Hw' Ha']]]]].
  change (run [Ev_signal c; Ev_shutdown_job] s)
    with (step (step s (Ev_signal c)) Ev_shutdown_job).
  rewrite E1. unfold step. simpl. rewrite Hx'. unfold shutdown_job. simpl.
  rewrite Hw', Hs. simpl. rewrite Ht, <- !app_assoc. simpl.
  repeat split; [exact Ha'|rewrite Hs; reflexivity].
Qed.

Lemma signal_while_idle_witness :
  let s' := run [Ev_signal 0; Ev_shutdown_job] init in
  exited s' = Some 0 /\ trace s' = [Newline; Log_error NotRunning; Exit 0].
Proof.
  destruct (signal_while_idle init 0 reachable_init eq_refl eq_refl eq_refl)
    as [H1 [H2 _]].
  split; [exact H1|exact H2].
Defined.

(** ** [stop] right after [start] *)

Lemma stop_idle_rejects (s : State) :
  Inv s -> appState s = IDLE ->
  exists i,
    stopValue (fst (stop s)) = Some (mkPromiseObj i (Finished (Rejected NotRunning)))
    /\ appState (fst (stop s)) = IDLE
    /\ current (fst (stop s)) = current s
    /\ startValue (fst (stop s)) = startValue s
    /\ trace (fst (stop s)) = trace s.
Proof.
  intros HI Ha. destruct (inv_idle s HI Ha) as [H|[i H]].
  - unfold stop, memo. rewrite H. unfold stop_body.
    destruct (decide (appState s = IDLE)); [|contradiction].
    simpl. eexists. repeat split. exact Ha.
  - rewrite (stop_settled s i _ H). exists i. simpl. repeat split; assumption.
Qed.

(** X8. [start] moves the pointer through its four phases at the call,
    before any job has run, while the run state is still idle until the
    first job. So a [stop] called right after [start], with no job in
    between, is rejected with "not running" although the pointer is
    already on "running"; that rejection stays in the cell of [memo], and
    no teardown phase is run in the rest of the execution. *)
Theorem stop_right_after_start (s : State) (evs : list Event) :
  reachable s ->
  exited s = None ->
  startValue s = None ->
  let s1 := run [Ev_start; Ev_stop] s in
  (current s1 = Some RUNNING /\ appState s1 = IDLE
   /\ outcome_of (stopValue s1) = Some (Rejected NotRunning))
  /\ let s' := run evs s1 in
     outcome_of (stopValue s') = Some (Rejected NotRunning)
     /\ (Run_phase SHUTTING_DOWN ∉ trace s')
     /\ (Run_phase TERMINATED ∉ trace s').
Proof.
  intros Hr Hx Hs s1.
  pose proof (Inv_reachable s Hr) as HI.
  destruct (inv_fresh s HI Hs) as [Ha [Hc _]].
  set (s0 := step s Ev_start).
  assert (E0 : s0 = set_startValue
                      (Some (mkPromiseObj (nextId s) (AwaitChain (promiseChain startFns))))
                      (set_nextId (S (nextId s))
                         (set_current (Some RUNNING) (emit (Log_info M_starting) s)))).
  { subst s0. unfold step. rewrite Hx. unfold start, memo. rewrite Hs.
    rewrite (start_body_fresh s Ha Hc). reflexivity. }
  assert (HI0 : Inv s0) by (apply Inv_step, HI).
  assert (Ha0 : appState s0 = IDLE) by (rewrite E0; exact Ha).
  assert (Hx0 : exited s0 = None) by (rewrite E0; exact Hx).
  destruct (stop_idle_rejects s0 HI0 Ha0) as [i [K1 [K2 [K3 [K4 K5]]]]].
  assert (E1 : s1 = fst (stop s0)).
  { subst s1. change (run [Ev_start; Ev_stop] s) with (step s0 Ev_stop).
    unfold step. rewrite Hx0. reflexivity. }
  split.
  - rewrite E1, K1, K2, K3. repeat split. rewrite E0. reflexivity.
  - intros s'.
    assert (Hs' : stopValue s' = Some (mkPromiseObj i (Finished (Rejected NotRunning)))).
    { apply run_keeps_stop_finished. rewrite E1. exact K1. }
    split; [rewrite Hs'; reflexivity|].
    apply (inv_teardown s').
    + apply Inv_run. rewrite E1. apply Inv_stop, HI0.
    + right. exists i. exact Hs'.
Qed.

Lemma stop_right_after_start_witness :
  let s1 := run [Ev_start; Ev_stop] init in
  current s1 = Some RUNNING /\ appState s1 = IDLE
  /\ outcome_of (stopValue s1) = Some (Rejected NotRunning).
Proof.
  exact (proj1 (stop_right_after_start init [] reachable_init eq_refl eq_refl)).
Defined.

(** ** The release gate *)

(** X9. While [start] is suspended on the promise of [started] and
    [stop] has not been called, a call of [stop] calls the release
    function and clears it, and the next job of [start] resolves the
    promise of [start]. *)
Theorem stop_releases_start (s : State) (i : nat) :
  exited s = None ->
  startValue s = Some (mkPromiseObj i (AwaitChain Gate)) ->
  release s = true ->
  stopValue s = None ->
  appState s = STARTED ->
  let s' := run [Ev_stop; Ev_start_job] s in
  outcome_of (startValue s') = Some Fulfilled
  /\ release s' = false
  /\ (exists j p, stopValue s' = Some (mkPromiseObj j (AwaitChain p)))
  /\ trace s' = trace s ++ [Log_info M_stopping].
Proof.
  intros Hx Hs Hr Ht Ha s'. subst s'.
  change (run [Ev_stop; Ev_start_job] s) with (step (step s Ev_stop) Ev_start_job).
  assert (E : exists c p,
             step s Ev_stop
             = set_stopValue (Some (mkPromiseObj (nextId s) (AwaitChain p)))
                 (set_nextId (S (nextId s))
                    (set_current c
                       (emit (Log_info M_stopping)
                          (set_release false
                             (set_startValue
                                (Some (mkPromiseObj i (AwaitChain (Settled Fulfilled))))
                                s)))))).
  { unfold step. rewrite Hx. unfold stop, memo. rewrite Ht.
    unfold stop_body. rewrite Ha, Hr, Hs.
    destruct (decide (STARTED = IDLE)) as [K|_]; [discriminate|].
    simpl. destruct (transition (current s) SHUTTING_DOWN) as [c1 t1].
    destruct (transition c1 TERMINATED) as [c2 t2]. simpl.
    eexists. eexists. reflexivity. }
  destruct E as [c [p E]]. rewrite E.
  unfold step. simpl. rewrite Hx. unfold start_job. simpl.
  repeat split. eexists. eexists. reflexivity.
Qed.

Lemma stop_releases_start_witness :
  let s := run [Ev_start; Ev_start_job; Ev_start_job; Ev_start_job; Ev_start_job;
                Ev_start_job; Ev_start_job] init in
  outcome_of (startValue s) = None
  /\ outcome_of (startValue (run [Ev_stop; Ev_start_job] s)) = Some Fulfilled.
Proof.
  intros s. split; [vm_compute; reflexivity|].
  exact (proj1 (stop_releases_start s 0%nat eq_refl eq_refl eq_refl eq_refl eq_refl)).
Defined.

(** ** A start that reaches [started] after [stop] was called *)

Lemma stop_called_stays (s : State) (ev : Event) :
  stopValue s <> None -> stopValue (step s ev) <> None.
Proof.
  intros H. destruct (stopValue s) as [[i a]|] eqn:E; [|contradiction].
  pose proof (step_keeps_stop_pid s ev i) as K. rewrite E in K.
  specialize (K eq_refl). intros N. rewrite N in K. discriminate.
Qed.

Lemma parked_after_stop_step (s : State) (ev : Event) :
  parked_after_stop s -> parked_after_stop (step s ev).
Proof.
  intros [[i [p [Hs Hl]]] Ht]. split; [|apply stop_called_stays, Ht].
  destruct (stopValue s) as [[j a]|] eqn:Et; [|contradiction]. clear Ht.
  unfold step. destruct (exited s); [eauto|].
  destruct ev as [| |l fn ord|code| | |r|r| |code|]; simpl; eauto.
  - rewrite (start_settled s i _ Hs). eauto.
  - rewrite (stop_settled s j _ Et). eauto.
  - unfold shutdown. destruct (bool_decide _ && _).
    + destruct (forceShutdown _); simpl; eauto.
    + destruct (decide _); simpl; eauto.
      rewrite (stop_settled _ j a) by exact Et. simpl. eauto.
  - unfold start_job. rewrite Hs.
    assert (T : tick p s = (p, s)).
    { rewrite tick_spine. unfold tick_on_spine. rewrite Hl. reflexivity. }
    destruct p as [o|h| |q fn]; simpl in Hl; try discriminate.
    + rewrite T. simpl. eauto.
    + rewrite T. simpl. exists i, (Then q fn). split; [reflexivity|exact Hl].
  - rewrite stop_job_startValue. eauto.
  - rewrite Hs. simpl. exists i, (settle (settled r) p). split; [reflexivity|].
    rewrite leaf_settle, Hl. reflexivity.
  - unfold shutdown_job. destruct (waiting s); [eauto|].
    rewrite Et. destruct a as [q| |[|e]]; simpl; eauto.
  - destruct (bool_decide _); simpl; eauto.
  - destruct (diagnostic s); simpl; eauto.
Qed.

(** X10. When [started] runs after [stop] has been called (the hooks of
    [start] were still in flight at the call), nothing can call the
    release function it stores, because every later [stop] returns the
    memoised promise: whatever happens next, the promise of [start] never
    settles. *)
Theorem start_after_stop_never_settles (s : State) (evs : list Event) :
  parked_after_stop s ->
  parked_after_stop (run evs s) /\ outcome_of (startValue (run evs s)) = None.
Proof.
  intros H.
  assert (K : parked_after_stop (run evs s)).
  { revert s H. induction evs as [|ev evs IH]; intros s H; [exact H|].
    apply (IH (step s ev)), parked_after_stop_step, H. }
  split; [exact K|].
  destruct K as [[i [p [Hs _]]] _]. rewrite Hs. reflexivity.
Qed.

Lemma start_after_stop_never_settles_witness :
  outcome_of
    (startValue (run [Ev_stop; Ev_diagnostic; Ev_signal 0; Ev_shutdown_job]
                   (run stop_during_start init))) = None.
Proof.
  apply (start_after_stop_never_settles (run stop_during_start init)).
  split; [|vm_compute; discriminate].
  exists 0%nat, Gate. split; reflexivity.
Defined.

(** ** Which assignments of the run state can go backwards *)

Lemma tick_effect (p : Promise) (s : State) :
  (forall f, f ∈ fns (fst (tick p s)) -> f ∈ fns p \/ exists h, f = Fn_hook h)
  /\ (appState (snd (tick p s)) = appState s
      \/ exists rest,
          leaf p = Settled Fulfilled
          /\ fns (fst (tick p s)) = rest
          /\ (fns p = Fn_status (appState (snd (tick p s))) :: rest
              \/ (fns p = Fn_started :: rest
                  /\ appState (snd (tick p s)) = STARTED))).
Proof.
  rewrite tick_spine. unfold tick_on_spine.
  assert (Hsame : (forall f, f ∈ fns p -> f ∈ fns p \/ exists h, f = Fn_hook h)
                  /\ (appState s = appState s
                      \/ exists rest,
                          leaf p = Settled Fulfilled /\ fns p = rest
                          /\ (fns p = Fn_status (appState s) :: rest
                              \/ (fns p = Fn_started :: rest /\ appState s = STARTED)))).
  { split; [intros f H; by left|by left]. }
  destruct (leaf p) as [[|e]|h| |] eqn:El; try exact Hsame;
    clear Hsame; destruct (fns p) as [|f0 rest] eqn:Ef;
    try (split; [simpl; intros f H; rewrite Ef in H; by left|by left]).
  - destruct f0 as [st|l| |h]; simpl.
    + split.
      * intros f H. rewrite fns_graft in H. simpl in H. left. apply elem_of_cons. by right.
      * right. exists rest. rewrite fns_graft. simpl. repeat split. by left.
    + split; [|by left].
      intros f H. rewrite fns_graft, fns_promiseChain in H.
      apply elem_of_app in H as [H|H].
      * right. apply list_elem_of_fmap in H as [h [-> _]]. eauto.
      * left. apply elem_of_cons. by right.
    + split.
      * intros f H. rewrite fns_graft in H. simpl in H. left. apply elem_of_cons. by right.
      * right. exists rest. rewrite fns_graft. simpl. repeat split. by right.
    + split; [|by left].
      intros f H. rewrite fns_graft in H. simpl in H. left. apply elem_of_cons. by right.
  - simpl. split; [|by left].
    intros f H. rewrite fns_graft in H. simpl in H. left. apply elem_of_cons. by right.
Qed.

Lemma stop_keeps_appState (s : State) : appState (fst (stop s)) = appState s.
Proof.
  unfold stop, memo. destruct (stopValue s); [reflexivity|].
  unfold stop_body. destruct (decide (appState s = IDLE)); [reflexivity|].
  destruct (release s); simpl;
    destruct (transition _ _) as [c1 t1]; destruct (transition c1 _) as [c2 t2];
    reflexivity.
Qed.

Lemma start_keeps_appState (s : State) : appState (fst (start s)) = appState s.
Proof.
  unfold start, memo. destruct (startValue s); [reflexivity|].
  unfold start_body. destruct (decide (appState s = IDLE)); [|reflexivity].
  simpl. destruct (transition _ _) as [c1 t1]. destruct (transition c1 _) as [c2 t2].
  destruct (transition c2 _) as [c3 t3]. destruct (transition c3 _) as [c4 t4].
  reflexivity.
Qed.

Lemma head_not_in_tail (n : nat) (f : Fn) (rest : list Fn) :
  drop n startFns = f :: rest -> f ∉ rest.
Proof.
  intros H.
  do 6 (destruct n as [|n];
        [inversion H; subst; intros K;
         repeat (apply elem_of_cons in K as [K|K]; [discriminate|]);
         inversion K|]).
  unfold startFns in H. simpl in H. destruct n; discriminate.
Qed.

Lemma Ranked_init : Ranked init.
Proof.
  split; [apply Inv_init| | |]; simpl; try discriminate.
  intros _. split; discriminate.
Qed.

Lemma Ranked_fields (s s' : State) :
  appState s' = appState s -> current s' = current s ->
  startValue s' = startValue s -> stopValue s' = stopValue s ->
  trace s' = trace s ->
  Ranked s -> Ranked s'.
Proof.
  intros E1 E2 E3 E4 E5 [HI A B C]. split.
  - apply (Inv_fields s); assumption.
  - rewrite E1, E3. exact A.
  - rewrite E1, E4. exact B.
  - rewrite E1, E4. exact C.
Qed.

Lemma Ranked_emit (o : Obs) (s : State) :
  (forall l, o <> Run_phase l) -> Ranked s -> Ranked (emit o s).
Proof.
  intros Ho [HI A B C]. split; [apply Inv_emit; assumption|exact A|exact B|exact C].
Qed.

Lemma stop_chain_tail (c : option Lifecycle) :
  let '(c1, t1) := transition c SHUTTING_DOWN in
  let '(c2, t2) := transition c1 TERMINATED in
  Fn_status STOPPING ∉ t1 ++ t2 ++ [Fn_status STOPPED].
Proof.
  destruct c as [[]|]; vm_compute; intros K;
    repeat (apply elem_of_cons in K as [K|K]; [discriminate|]); inversion K.
Qed.

Lemma Ranked_stop (s : State) : Ranked s -> Ranked (fst (stop s)).
Proof.
  intros HR. pose proof (Inv_stop s (rk_inv s HR)) as HI'.
  destruct (stopValue s) as [[j a]|] eqn:Es.
  { rewrite (stop_settled s j a Es). exact HR. }
  destruct HR as [HI A B C].
  unfold stop, memo in *. rewrite Es in HI' |- *.
  unfold stop_body in *. destruct (decide (appState s = IDLE)) as [Hi|Hi].
  - split; [exact HI'|exact A| |]; simpl; discriminate.
  - set (s0 := if release s
               then set_release false
                      (set_startValue (map_chain resolve_gate (startValue s)) s)
               else s) in *.
    assert (H0 : appState s0 = appState s
                 /\ forall i p, startValue s0 = Some (mkPromiseObj i (AwaitChain p)) ->
                                Fn_status STARTING ∈ fns p -> appState s = IDLE).
    { subst s0. destruct (release s); [|split; [reflexivity|exact A]].
      split; [reflexivity|]. simpl. intros i p H K.
      apply map_chain_AwaitChain in H as [q [H ->]].
      rewrite fns_resolve_gate in K. exact (A i q H K). }
    destruct H0 as [Ea A0].
    change (current (emit (Log_info M_stopping) s0)) with (current s0) in *.
    pose proof (stop_chain_tail (current s0)) as Htail.
    destruct (transition (current s0) SHUTTING_DOWN) as [c1 t1].
    destruct (transition c1 TERMINATED) as [c2 t2].
    simpl in *. split; [exact HI'| | |]; simpl.
    + rewrite Ea. exact A0.
    + discriminate.
    + intros i p H _. inversion H; subst. rewrite fns_promiseChain. simpl. split.
      * rewrite Ea. destruct (B Es) as [B1 B2].
        destruct (appState s); try contradiction; [by left|by right].
      * eexists. split; [reflexivity|exact Htail].
Qed.

Lemma Ranked_start (s : State) : Ranked s -> Ranked (fst (start s)).
Proof.
  intros HR. pose proof (Inv_start s (rk_inv s HR)) as HI'.
  destruct (startValue s) as [[j a]|] eqn:Es.
  { rewrite (start_settled s j a Es). exact HR. }
  destruct HR as [HI A B C].
  unfold start, memo in *. rewrite Es in HI' |- *.
  destruct (inv_fresh s HI Es) as [Ha [Hc _]].
  rewrite (start_body_fresh s Ha Hc) in *. simpl in *.
  split; [exact HI'| |exact B|exact C]. simpl. intros i p _ _. exact Ha.
Qed.

Lemma Ranked_process_exit (code : Z) (s : State) : Ranked s -> Ranked (process_exit code s).
Proof.
  intros HR. apply (Ranked_fields (emit (Exit code) s)); try reflexivity.
  apply Ranked_emit; [discriminate|exact HR].
Qed.

Lemma Ranked_shutdown (code : Z) (s : State) : Ranked s -> Ranked (shutdown code s).
Proof.
  intros HR. unfold shutdown.
  set (s2 := set_deadlines (deadlines (emit Newline s) ++ [code]) (emit Newline s)).
  assert (H2 : Ranked s2).
  { apply (Ranked_fields (emit Newline s)); try reflexivity.
    apply Ranked_emit; [discriminate|exact HR]. }
  destruct (bool_decide (appState s2 = STOPPING) && (code =? 0)).
  - destruct (forceShutdown s2); [apply Ranked_process_exit, H2|].
    apply (Ranked_fields (emit (Log_warn M_repeat) s2)); try reflexivity.
    apply Ranked_emit; [discriminate|exact H2].
  - destruct (decide (appState s2 = STOPPED)); [apply Ranked_process_exit, H2|].
    pose proof (Ranked_stop s2 H2) as K. destruct (stop s2) as [s3 j]. simpl in K.
    apply (Ranked_fields s3); try reflexivity. exact K.
Qed.

Lemma Ranked_shutdown_job (s : State) : Ranked s -> Ranked (shutdown_job s).
Proof.
  intros HR. unfold shutdown_job. destruct (waiting s) as [|code rest]; [exact HR|].
  destruct (stopValue s) as [[j [p| |o]]|] eqn:Es; try exact HR.
  apply Ranked_process_exit.
  assert (H1 : Ranked (set_waiting rest s)).
  { apply (Ranked_fields s); try reflexivity. exact HR. }
  destruct o as [|e]; [exact H1|]. apply Ranked_emit; [discriminate|exact H1].
Qed.

Lemma tick_pops (p : Promise) (s : State) :
  tick p s = (p, s)
  \/ exists f rest,
      fns p = f :: rest
      /\ forall g, g ∈ fns (fst (tick p s)) -> g ∈ rest \/ exists h, g = Fn_hook h.
Proof.
  rewrite tick_spine. unfold tick_on_spine.
  destruct (leaf p) as [[|e]|h| |] eqn:El; try (by left);
    destruct (fns p) as [|f0 rest] eqn:Ef; try (by left); right; exists f0, rest;
    (split; [reflexivity|]).
  - destruct f0 as [st|l| |h]; simpl; intros g H; rewrite fns_graft in H; simpl in H;
      try (by left).
    rewrite fns_promiseChain in H. apply elem_of_app in H as [H|H]; [|by left].
    right. apply list_elem_of_fmap in H as [h [-> _]]. eauto.
  - simpl. intros g H. rewrite fns_graft in H. simpl in H. by left.
Qed.

Lemma starting_not_in_tail (n : nat) (f : Fn) (rest : list Fn) :
  drop n startFns = f :: rest -> Fn_status STARTING ∉ rest.
Proof.
  intros H.
  do 6 (destruct n as [|n];
        [inversion H; subst; intros K;
         repeat (apply elem_of_cons in K as [K|K]; [discriminate|]);
         inversion K|]).
  unfold startFns in H. simpl in H. destruct n; discriminate.
Qed.

Lemma Ranked_start_done (i : nat) (a : Act) (s s' : State) :
  (forall p, a <> AwaitChain p) ->
  Inv s' ->
  appState s' = appState s -> stopValue s' = stopValue s ->
  startValue s' = Some (mkPromiseObj i a) ->
  Ranked s -> Ranked s'.
Proof.
  intros Ha HI' E1 E2 E3 [HI A B C]. split; [exact HI'| | |].
  - intros j p H. rewrite E3 in H. inversion H; subst. exfalso. exact (Ha p eq_refl).
  - rewrite E1, E2. exact B.
  - rewrite E1, E2. exact C.
Qed.

Lemma Ranked_start_job (s : State) : Ranked s -> Ranked (start_job s).
Proof.
  intros HR. pose proof (Inv_start_job s (rk_inv s HR)) as HI'.
  unfold start_job in *.
  destruct (startValue s) as [[i [p| |o]]|] eqn:Es; try exact HR.
  - destruct (inv_start s (rk_inv s HR) i p Es) as [_ [hs [n [Hf _]]]].
    pose proof (tick_effect p s) as [_ F2].
    pose proof (tick_pops p s) as Fp.
    pose proof (tick_frame p s) as [_ [Ft _]].
    assert (Htick : forall p' s', tick p s = (p', s') -> Inv (set_startValue
                      (Some (mkPromiseObj i (AwaitChain p'))) s') ->
                    Ranked (set_startValue (Some (mkPromiseObj i (AwaitChain p'))) s')).
    { intros p' s' Et HI2. rewrite Et in F2, Fp, Ft. simpl in F2, Fp, Ft.
      destruct HR as [HI A B C].
      assert (Hst : appState s' = appState s \/ appState s' = STARTING
                    \/ appState s' = STARTED).
      { destruct F2 as [F2|[rest [_ [_ [F2|[_ F2]]]]]]; [by left| |by right; right].
        rewrite F2 in Hf. apply chain_shape in Hf as [[h [hs' [_ [K _]]]]|[_ Hd]];
          [discriminate|].
        apply head_tail in Hd as [_ [K|[K|[l [K _]]]]]; try discriminate.
        inversion K. right. by left. }
      split; [exact HI2| | |]; simpl.
      - intros j q H Hin. inversion H; subst q j. clear H.
        destruct Fp as [Fp|[f [rest [Ef Fp]]]].
        + inversion Fp; subst. exact (A i p Es Hin).
        + destruct (Fp _ Hin) as [K|[h K]]; [|discriminate].
          rewrite Ef in Hf.
          apply chain_shape in Hf as [[h [hs' [_ [-> Hr]]]]|[_ Hd]].
          * assert (Hidle : appState s = IDLE).
            { apply (A i p Es). rewrite Ef. apply elem_of_cons. by right. }
            destruct F2 as [F2|[rest' [_ [_ [F2|[F2 _]]]]]];
              [congruence|rewrite Ef in F2; discriminate|rewrite Ef in F2; discriminate].
          * exfalso. exact (starting_not_in_tail n f rest Hd K).
      - rewrite Ft. intros H. destruct (B H) as [B1 B2].
        destruct Hst as [->|[->| ->]]; split; try assumption; discriminate.
      - rewrite Ft. intros j q H Hin. destruct (C j q H Hin) as [C1 C2].
        split; [|exact C2].
        destruct Hst as [->|[->| ->]]; [exact C1|by left|by right]. }
    destruct p as [[|e]|h| |q fn];
      try (destruct (tick _ s) as [p' s'] eqn:Et; exact (Htick p' s' eq_refl HI')).
    + apply (Ranked_start_done i (Finished Fulfilled) s); try reflexivity;
        [discriminate|exact HI'|exact HR].
    + pose proof (Ranked_stop _ (Ranked_emit (Log_error e) s ltac:(discriminate) HR)) as K.
      pose proof (stop_keeps_appState (emit (Log_error e) s)) as Ka.
      destruct (stop (emit (Log_error e) s)) as [s2 j]. simpl in *.
      apply (Ranked_start_done i AwaitStop s2); try reflexivity;
        [discriminate|exact HI'|exact K].
  - destruct (stopValue s) as [[j [p| |o]]|] eqn:Et; try exact HR.
    apply (Ranked_start_done i (Finished o) s); try reflexivity;
      [discriminate|exact HI'|exact HR].
Qed.

Lemma Ranked_stop_job (s : State) : Ranked s -> Ranked (stop_job s).
Proof.
  intros HR. pose proof (Inv_stop_job s (rk_inv s HR)) as HI'.
  pose proof (stop_job_startValue s) as Hsv.
  unfold stop_job in *.
  destruct (stopValue s) as [[i [p| |o]]|] eqn:Es; try exact HR.
  destruct (stop_chain_not_idle i _ s (rk_inv s HR) Es ltac:(discriminate)) as [Ha _].
  assert (Hvac : forall j q, startValue s = Some (mkPromiseObj j (AwaitChain q)) ->
                             Fn_status STARTING ∈ fns q -> False).
  { intros j q H K. apply Ha. exact (rk_starting s HR j q H K). }
  pose proof (tick_pops p s) as Fp.
  assert (Htick : forall p' s', tick p s = (p', s') ->
                    startValue (set_stopValue (Some (mkPromiseObj i (AwaitChain p'))) s')
                      = startValue s ->
                    Inv (set_stopValue (Some (mkPromiseObj i (AwaitChain p'))) s') ->
                    Ranked (set_stopValue (Some (mkPromiseObj i (AwaitChain p'))) s')).
  { intros p' s' Et Hsv' HI2. rewrite Et in Fp. simpl in Fp.
    destruct Fp as [Fp|[f [rest [Ef Fp]]]].
    - inversion Fp; subst p' s'.
      apply (Ranked_fields s); try reflexivity; [simpl; symmetry; exact Es|exact HR].
    - split; [exact HI2| | |].
      + intros j q H K. exfalso. rewrite Hsv' in H. exact (Hvac j q H K).
      + simpl. discriminate.
      + simpl. intros j q H K. inversion H; subst q j. exfalso.
        destruct (Fp _ K) as [K'|[h K']]; [|discriminate].
        assert (Hin : Fn_status STOPPING ∈ fns p).
        { rewrite Ef. apply elem_of_cons. by right. }
        destruct (rk_stopping s HR i p Es Hin) as [_ [r [Er Hn]]].
        rewrite Ef in Er. inversion Er; subst. exact (Hn K'). }
  destruct p as [[|e]|h| |q fn];
    try (destruct (tick _ s) as [p' s'] eqn:Et; exact (Htick p' s' eq_refl Hsv HI')).
  - destruct HR as [HI A B C]. split; [exact HI'|exact A| |]; simpl; discriminate.
  - destruct HR as [HI A B C]. split; [exact HI'|exact A| |]; simpl; discriminate.
Qed.

Lemma Ranked_settle_start (r : Settlement) (s : State) :
  Ranked s ->
  Ranked (set_startValue (map_chain (settle (settled r)) (startValue s)) s).
Proof.
  intros [HI A B C]. split; [|simpl|exact B|exact C].
  - apply Inv_map_start; [apply fns_settle|apply hook_leaf_settle|exact HI].
  - intros i p H K. apply map_chain_AwaitChain in H as [q [H ->]].
    rewrite fns_settle in K. exact (A i q H K).
Qed.

Lemma Ranked_settle_stop (r : Settlement) (s : State) :
  Ranked s ->
  Ranked (set_stopValue (map_chain (settle (settled r)) (stopValue s)) s).
Proof.
  intros [HI A B C]. split; [|exact A|simpl|simpl].
  - apply Inv_map_stop; [apply fns_settle|apply hook_leaf_settle|exact HI].
  - intros H. apply B, (map_chain_None _ _ H).
  - intros i p H K. apply map_chain_AwaitChain in H as [q [H ->]].
    rewrite fns_settle in K |- *. exact (C i q H K).
Qed.

Lemma Ranked_step (s : State) (ev : Event) : Ranked s -> Ranked (step s ev).
Proof.
  intros HR. unfold step. destruct (exited s); [exact HR|].
  destruct ev as [| |l fn o|code| | |r|r| |code|].
  - apply Ranked_start, HR.
  - apply Ranked_stop, HR.
  - apply (Ranked_fields s); try reflexivity. exact HR.
  - apply Ranked_shutdown, HR.
  - apply Ranked_start_job, HR.
  - apply Ranked_stop_job, HR.
  - apply Ranked_settle_start, HR.
  - apply Ranked_settle_stop, HR.
  - apply Ranked_shutdown_job, HR.
  - destruct (bool_decide _); [|exact HR].
    apply Ranked_process_exit, Ranked_emit; [discriminate|exact HR].
  - destruct (diagnostic s); [|exact HR].
    apply (Ranked_fields (emit (Log_warn M_keeps_alive) s)); try reflexivity.
    apply Ranked_emit; [discriminate|exact HR].
Qed.

Lemma Ranked_reachable (s : State) : reachable s -> Ranked s.
Proof.
  intros [evs ->]. revert evs. 
  assert (K : forall evs s0, Ranked s0 -> Ranked (run evs s0)).
  { induction evs as [|ev evs IH]; intros s0 H; [exact H|].
    apply (IH (step s0 ev)), Ranked_step, H. }
  intros evs. apply K, Ranked_init.
Qed.

Lemma start_job_appState (s : State) (i : nat) (p : Promise) :
  startValue s = Some (mkPromiseObj i (AwaitChain p)) ->
  appState (start_job s) = appState (snd (tick p s)).
Proof.
  intros Hs. unfold start_job. rewrite Hs.
  destruct p as [[|e]|h| |q fn]; try (destruct (tick _ s) as [p' s']; reflexivity).
  - reflexivity.
  - pose proof (stop_keeps_appState (emit (Log_error e) s)) as K.
    destruct (stop (emit (Log_error e) s)) as [s2 j]. simpl in *. exact K.
Qed.

Lemma stop_job_appState (s : State) (i : nat) (p : Promise) :
  stopValue s = Some (mkPromiseObj i (AwaitChain p)) ->
  appState (stop_job s) = appState (snd (tick p s)).
Proof.
  intros Hs. unfold stop_job. rewrite Hs.
  destruct p as [[|e]|h| |q fn]; try (destruct (tick _ s) as [p' s']; reflexivity);
    reflexivity.
Qed.

Lemma shutdown_keeps_appState (code : Z) (s : State) :
  appState (shutdown code s) = appState s.
Proof.
  unfold shutdown. simpl.
  destruct (bool_decide _ && _).
  - destruct (forceShutdown s); reflexivity.
  - destruct (decide _); [reflexivity|].
    match goal with |- context [stop ?x] =>
      pose proof (stop_keeps_appState x) as K; destruct (stop x) as [s3 j] end.
    exact K.
Qed.

Lemma step_rank (s : State) (ev : Event) :
  Ranked s ->
  (rank (appState s) <= rank (appState (step s ev)))%nat
  \/ (ev = Ev_start_job
      /\ appState (step s ev) = STARTED
      /\ stopValue s <> None
      /\ (appState s = STOPPING \/ appState s = STOPPED)).
Proof.
  intros HR. unfold step. destruct (exited s); [left; lia|].
  destruct ev as [| |l fn o|code| | |r|r| |code|];
    try (left; simpl; lia).
  - left. rewrite start_keeps_appState. lia.
  - left. rewrite stop_keeps_appState. lia.
  - left. rewrite shutdown_keeps_appState. lia.
  - destruct (startValue s) as [[i [p| |o]]|] eqn:Es;
      try (left; unfold start_job; rewrite Es; simpl;
           try (destruct (stopValue s) as [[j [q| |o']]|]); simpl; lia).
    rewrite (start_job_appState s i p Es).
    destruct (inv_start s (rk_inv s HR) i p Es) as [_ [hs [n [Hf _]]]].
    destruct (tick_effect p s) as [_ [F|[rest [_ [_ [F|[F Fa]]]]]]].
    + left. rewrite F. lia.
    + assert (Hst : appState (snd (tick p s)) = STARTING).
      { rewrite F in Hf. apply chain_shape in Hf as [[h [hs' [_ [K _]]]]|[_ Hd]];
          [discriminate|].
        apply head_tail in Hd as [_ [K|[K|[l [K _]]]]]; try discriminate.
        inversion K. reflexivity. }
      left. rewrite Hst in F |- *.
      rewrite (rk_starting s HR i p Es) by (rewrite F; apply elem_of_cons; by left).
      simpl. lia.
    + rewrite Fa. destruct (appState s) eqn:Ea; try (left; simpl; lia).
      * right. repeat split; [|by left]. intros K.
        destruct (rk_unstopped s HR K) as [K1 _]. congruence.
      * right. repeat split; [|by right]. intros K.
        destruct (rk_unstopped s HR K) as [_ K2]. congruence.
  - destruct (stopValue s) as [[i [p| |o]]|] eqn:Es;
      try (left; unfold stop_job; rewrite Es; simpl; lia).
    rewrite (stop_job_appState s i p Es).
    destruct (inv_stop s (rk_inv s HR) i p Es) as [_ Hf].
    destruct (tick_effect p s) as [_ [F|[rest [_ [_ [F|[F Fa]]]]]]].
    + left. rewrite F. lia.
    + left. rewrite F in Hf. apply Forall_cons in Hf as [Hf _].
      destruct (appState (snd (tick p s))) eqn:Ea; simpl in Hf; try contradiction.
      * assert (Hin : Fn_status STOPPING ∈ fns p) by (rewrite F; apply elem_of_cons; by left).
        destruct (rk_stopping s HR i p Es Hin) as [[-> | ->] _]; simpl; lia.
      * destruct (appState s); simpl; lia.
    + rewrite F in Hf. apply Forall_cons in Hf as [Hf _]. simpl in Hf. contradiction.
  - left. unfold shutdown_job. destruct (waiting s); [lia|].
    destruct (stopValue s) as [[j [p| |[|e]]]|]; simpl; lia.
  - left. destruct (bool_decide _); simpl; lia.
  - left. destruct (diagnostic s); simpl; lia.
Qed.

(** X11. The run state never goes backwards except in one place: an
    event either keeps or advances it in the order idle, starting,
    started, stopping, stopped, or it is the job of [start] that runs
    [started] after [stop] has been called, which sets "started" over
    "stopping" or "stopped". In particular, as long as [stop] has not been
    called the run state only advances. *)
Theorem run_state_goes_back_only_in_started (s : State) (ev : Event) :
  reachable s ->
  (rank (appState s) <= rank (appState (step s ev)))%nat
  \/ (ev = Ev_start_job
      /\ appState (step s ev) = STARTED
      /\ stopValue s <> None
      /\ (appState s = STOPPING \/ appState s = STOPPED)).
Proof. intros Hr. apply step_rank, Ranked_reachable, Hr. Qed.

Lemma run_state_goes_back_only_in_started_witness :
  let s := run (take 15 stop_during_start) init in
  appState s = STOPPED
  /\ ((rank (appState s) <= rank (appState (step s Ev_start_job)))%nat
      \/ (Ev_start_job = Ev_start_job
          /\ appState (step s Ev_start_job) = STARTED
          /\ stopValue s <> None
          /\ (appState s = STOPPING \/ appState s = STOPPED))).
Proof.
  intros s. split; [vm_compute; reflexivity|].
  apply (run_state_goes_back_only_in_started s Ev_start_job).
  apply reachable_run, reachable_init.
Defined.

(** X12. Once the run state has left "idle" it never is "idle" again:
    there is no restart. *)
Theorem run_state_never_idle_again (s : State) (evs : list Event) :
  reachable s ->
  appState s <> IDLE ->
  appState (run evs s) <> IDLE.
Proof.
  intros Hr. apply Ranked_reachable in Hr. revert s Hr.
  induction evs as [|ev evs IH]; intros s HR Ha; [exact Ha|].
  apply (IH (step s ev)); [apply Ranked_step, HR|].
  destruct (step_rank s ev HR) as [K|[_ [K _]]]; [|congruence].
  intros E. rewrite E in K. destruct (appState s); simpl in K; try lia. contradiction.
Qed.

Lemma run_state_never_idle_again_witness :
  appState (run [Ev_stop; Ev_stop_job; Ev_stop_job]
              (run booted_hook_pending init)) <> IDLE.
Proof.
  apply (run_state_never_idle_again (run booted_hook_pending init)).
  - apply reachable_run, reachable_init.
  - vm_compute. discriminate.
Defined.
